(** * The delegated-operation service of fiftyone/operators/delegated.py

    A shallow embedding of [DelegatedOperationService]: the service methods
    are functions in a small state-and-exception monad over a world made of
    the repository's document store and the trace of calls that left the
    service.  The collaborators that the service only calls (the operator
    resolver, the operators themselves, the storage backend's failures) are
    gathered in an environment record. *)

From stdpp Require Import base option list gmap strings.
From Stdlib Require Import ZArith Lia.

Local Open Scope string_scope.
Local Open Scope list_scope.

(** ** Data model *)

(** [bson.ObjectId], abstracted to a number. *)
Definition ObjectId := nat.

(** [fiftyone.operators.executor.ExecutionRunState]. *)
Inductive ExecutionRunState := QUEUED | RUNNING | COMPLETED | FAILED.

#[global] Instance ExecutionRunState_eq_dec : EqDecision ExecutionRunState.
Proof. solve_decision. Defined.

(** Python values that travel through the service: request parameters,
    operator results and [ExecutionResult] instances. *)
Inductive PyVal :=
| PyNone
| PyStr (s : string)
| PyInt (z : Z)
| PyObjectId (i : ObjectId)
| PyExecutionResult (result : PyVal) (error : option string).

(** [ExecutionResult(error=tb)]: the result payload defaults to [None]. *)
Definition ExecutionResult_error (tb : string) : PyVal :=
  PyExecutionResult PyNone (Some tb).

(** [ExecutionContext]: the service reads and writes [request_params] only. *)
Record ExecutionContext := mkContext { request_params : gmap string PyVal }.

(** A raised instance of [Exception]: the class name and the text that
    [traceback.format_exc()] produces while it is being handled.  Interpreter
    exit signals, which [except Exception] does not catch, are not values of
    this type. *)
Record PyExn := mkExn { exn_class : string; exn_traceback : string }.

Definition format_exc (e : PyExn) : string := exn_traceback e.

(** An executable operator: [execute(ctx)] returns a value or raises. *)
Record Operator := mkOperator {
  op_uri : string;
  op_execute : ExecutionContext → PyExn + PyVal }.

(** What [prepare_operator_executor] returns: an [ExecutionResult] instance,
    or the triple [(operator, executor, ctx)]. *)
Inductive Prepared :=
| PreparedResult (result : PyVal) (error : option string)
| PreparedExecutor (operator : Operator) (executor : PyVal) (ctx : ExecutionContext).

(** [DelegatedOperationDocument]. *)
Record DelegatedOperationDocument := mkDoc {
  doc_id : ObjectId;
  doc_operator : string;
  doc_delegation_target : option string;
  doc_context : option ExecutionContext;
  doc_run_state : ExecutionRunState;
  doc_result : PyVal;
  doc_pinned : bool }.

(** [DelegatedOpPagingParams(limit=...)]. *)
Record DelegatedOpPagingParams := mkPaging { pg_limit : Z }.

(** The keyword arguments of [list_operations].  [dataset_id] can reach the
    service through [**kwargs], so it is whatever value the caller passed;
    [None] stands for Python's [None], the default of every filter. *)
Record ListFilters := mkFilters {
  f_operator : option string;
  f_dataset_name : option string;
  f_dataset_id : option PyVal;
  f_run_state : option ExecutionRunState;
  f_delegation_target : option string;
  f_kwargs : list (string * PyVal) }.

(** The keyword arguments of the repository's [queue_operation]: the three
    fields of its contract, and the names of any other keyword passed along
    ([**doc.__dict__] passes every attribute of the document). *)
Record QueueKwargs := mkQueueKwargs {
  kw_operator : string;
  kw_delegation_target : option string;
  kw_context : option ExecutionContext;
  kw_other : list string }.

(** ** Calls that leave the service *)

Inductive RepoCall :=
| CallQueueOperation (kw : QueueKwargs)
| CallUpdateRunState (_id : ObjectId) (run_state : ExecutionRunState) (result : PyVal)
| CallGet (_id : ObjectId)
| CallListOperations (filters : ListFilters) (paging : option DelegatedOpPagingParams).

Inductive LogLine :=
| LogRunning (_id : ObjectId) (operator : string)
| LogComplete (_id : ObjectId)
| LogFailed (_id : ObjectId).

Inductive Event :=
| EvRepo (call : RepoCall)
| EvPrepare (operator_uri : string) (request_params : gmap string PyVal)
| EvExecute (operator_uri : string) (ctx : ExecutionContext)
| EvLog (line : LogLine).

(** The collaborators of the service. *)
Record Env := mkEnv {
  (** [fiftyone.operators.executor.prepare_operator_executor] *)
  prepare_operator_executor : string → gmap string PyVal → PyExn + Prepared;
  (** a failure of the storage backend on a repository call, if any *)
  repo_fault : RepoCall → option PyExn;
  (** how the repository matches the dataset and extra filters *)
  repo_matches_dataset :
    option string → option PyVal → list (string * PyVal) →
    DelegatedOperationDocument → bool }.

(** ** The monad: world passing with exceptions *)

Record World := mkWorld {
  store : list DelegatedOperationDocument;
  trace : list Event }.

Definition Py (A : Type) : Type := World → (PyExn + A) * World.

Definition ret {A} (a : A) : Py A := fun w => (inr a, w).

Definition raise {A} (e : PyExn) : Py A := fun w => (inl e, w).

Definition bind {A B} (m : Py A) (k : A → Py B) : Py B :=
  fun w => match m w with
           | (inr a, w') => k a w'
           | (inl e, w') => (inl e, w')
           end.

(** [try: body except Exception as e: handler] *)
Definition try_except {A} (body : Py A) (handler : PyExn → Py A) : Py A :=
  fun w => match body w with
           | (inr a, w') => (inr a, w')
           | (inl e, w') => handler e w'
           end.

Definition emit (ev : Event) : Py unit :=
  fun w => (inr tt, mkWorld (store w) (trace w ++ [ev])).

Definition when (b : bool) (m : Py unit) : Py unit :=
  if b then m else ret tt.

(** [for x in xs: body(x)] *)
Fixpoint for_each {A} (xs : list A) (body : A → Py unit) : Py unit :=
  match xs with
  | [] => ret tt
  | x :: xs' => bind (body x) (fun _ => for_each xs' body)
  end.

Declare Scope py_scope.
Delimit Scope py_scope with py.
Notation "x <- m ;; k" := (bind m (fun x => k))
  (at level 100, m at next level, right associativity) : py_scope.
Notation "m ;; k" := (bind m (fun _ => k))
  (at level 100, right associativity) : py_scope.

(** [logger.info(...)] *)
Definition logger_info (line : LogLine) : Py unit := emit (EvLog line).

(** ** Calls with [**kwargs]

    A [**kwargs] dictionary is kept as the list of its items, in insertion
    order. *)

(** What a call [f(name=..., **kwargs)] raises when [kwargs] holds [name]
    as well. *)
Definition TypeError_multiple_values (name : string) : PyExn :=
  mkExn "TypeError"
        ("TypeError: got multiple values for keyword argument '" +:+ name +:+ "'").

(** The first key of [kwargs] that is also among the keywords [names] that
    the call passes by name, if there is one. *)
Definition keyword_clash (names : list string) (kwargs : list (string * PyVal)) :
    option string :=
  fst <$> find (fun kv => bool_decide (kv.1 ∈ names)) kwargs.

(** The value that [kwargs] binds to the callee's parameter [name], whose
    default is [None]. *)
Definition keyword_argument (name : string) (kwargs : list (string * PyVal)) :
    option PyVal :=
  match find (fun kv => bool_decide (kv.1 = name)) kwargs with
  | Some (_, PyNone) | None => None
  | Some (_, v) => Some v
  end.

(** The items of [kwargs] that are left for the callee's own [**kwargs]
    once its parameter [name] is bound. *)
Definition other_keywords (name : string) (kwargs : list (string * PyVal)) :
    list (string * PyVal) :=
  filter (fun kv => kv.1 ≠ name) kwargs.

(** The keywords that [execute_queued_operations] passes by name to
    [list_operations]. *)
Definition passed_by_name : list string :=
  ["operator"; "dataset_name"; "delegation_target"; "run_state"; "paging"].

Local Open Scope py_scope.

Section Service.

Context (env : Env).

(** ** The repository ([self._repo]) *)

(** Modelled from the spec: [DelegatedOperationRepo] is not part of the
    sources at hand.  Every repository call is recorded in the trace, raises
    when the storage backend fails on it, and otherwise runs on the store. *)
Definition repo_call {A} (call : RepoCall)
    (body : list DelegatedOperationDocument →
            PyExn + (A * list DelegatedOperationDocument)) : Py A :=
  fun w =>
    let tr := trace w ++ [EvRepo call] in
    match repo_fault env call with
    | Some e => (inl e, mkWorld (store w) tr)
    | None =>
        match body (store w) with
        | inl e => (inl e, mkWorld (store w) tr)
        | inr (a, st') => (inr a, mkWorld st' tr)
        end
    end.

Definition has_id (_id : ObjectId) (d : DelegatedOperationDocument) : bool :=
  bool_decide (doc_id d = _id).

Definition NotFound (_id : ObjectId) : PyExn :=
  mkExn "NotFound" "NotFound: no delegated operation with this id".

(** Modelled from the spec: an id that no stored document carries
    ("unique id, assigned at creation"). *)
Definition fresh_id (st : list DelegatedOperationDocument) : ObjectId :=
  S (max_list (doc_id <$> st)).

(** Modelled from the spec: [get(id) -> Document], "fails with NotFound if
    absent". *)
Definition repo_get (_id : ObjectId) : Py DelegatedOperationDocument :=
  repo_call (CallGet _id) (fun st =>
    match find (has_id _id) st with
    | Some d => inr (d, st)
    | None => inl (NotFound _id)
    end).

(** Modelled from the spec: [queue_operation(operator, delegation_target,
    context) -> Document] "creates a new document with state QUEUED"; the
    result is unset and the document is not pinned.  Keywords outside the
    contract are not read. *)
Definition repo_queue_operation (kw : QueueKwargs) : Py DelegatedOperationDocument :=
  repo_call (CallQueueOperation kw) (fun st =>
    let d := mkDoc (fresh_id st) (kw_operator kw) (kw_delegation_target kw)
                   (kw_context kw) QUEUED PyNone false in
    inr (d, st ++ [d])).

(** Modelled from the spec: the transition "simply write[s] state
    unconditionally"; a result is "attached to a document only at
    COMPLETED/FAILED transitions". *)
Definition write_run_state (run_state : ExecutionRunState) (result : PyVal)
    (d : DelegatedOperationDocument) : DelegatedOperationDocument :=
  mkDoc (doc_id d) (doc_operator d) (doc_delegation_target d) (doc_context d)
        run_state
        (match run_state with
         | COMPLETED | FAILED => result
         | QUEUED | RUNNING => doc_result d
         end)
        (doc_pinned d).

(** Modelled from the spec: the store after the document with that id has
    been rewritten; the other documents are left as they are. *)
Definition store_update (_id : ObjectId) (run_state : ExecutionRunState)
    (result : PyVal) (st : list DelegatedOperationDocument) :
    list DelegatedOperationDocument :=
  (fun d => if has_id _id d then write_run_state run_state result d else d) <$> st.

(** Modelled from the spec: [update_run_state(id, run_state, result?) ->
    Document] rewrites the document with that id and returns it. *)
Definition repo_update_run_state (_id : ObjectId) (run_state : ExecutionRunState)
    (result : PyVal) : Py DelegatedOperationDocument :=
  repo_call (CallUpdateRunState _id run_state result) (fun st =>
    match find (has_id _id) st with
    | Some d =>
        inr (write_run_state run_state result d,
             store_update _id run_state result st)
    | None => inl (NotFound _id)
    end).

Definition opt_matches {A} `{EqDecision A} (flt : option A) (a : option A) : bool :=
  match flt with
  | None => true
  | Some x => bool_decide (a = Some x)
  end.

(** Modelled from the spec: "all filters are optional and conjunctive (AND
    semantics) when present". *)
Definition matches (f : ListFilters) (d : DelegatedOperationDocument) : bool :=
  opt_matches (f_operator f) (Some (doc_operator d))
  && opt_matches (f_run_state f) (Some (doc_run_state d))
  && opt_matches (f_delegation_target f) (doc_delegation_target d)
  && repo_matches_dataset env (f_dataset_name f) (f_dataset_id f) (f_kwargs f) d.

(** Modelled from the spec: paging describes "how many queued documents to
    retrieve in one batch; absence means no limit". *)
Definition page (paging : option DelegatedOpPagingParams)
    (ds : list DelegatedOperationDocument) : list DelegatedOperationDocument :=
  match paging with
  | None => ds
  | Some p => take (Z.to_nat (pg_limit p)) ds
  end.

(** Modelled from the spec: [list_operations(filters..., paging?) -> sequence
    of Document], in the order of the store. *)
Definition repo_list_operations (f : ListFilters)
    (paging : option DelegatedOpPagingParams) : Py (list DelegatedOperationDocument) :=
  repo_call (CallListOperations f paging) (fun st =>
    inr (page paging (filter (fun d => matches f d = true) st), st)).

(** ** The resolver and the operators *)

Definition call_prepare_operator_executor (operator_uri : string)
    (params : gmap string PyVal) : Py Prepared :=
  fun w =>
    (prepare_operator_executor env operator_uri params,
     mkWorld (store w) (trace w ++ [EvPrepare operator_uri params])).

(** [operator.execute(ctx)] *)
Definition operator_execute (operator : Operator) (ctx : ExecutionContext) : Py PyVal :=
  fun w =>
    (op_execute operator ctx,
     mkWorld (store w) (trace w ++ [EvExecute (op_uri operator) ctx])).

(** [asyncio.run(coro)]: runs the coroutine to completion and hands back its
    value or its exception. *)
Definition asyncio_run {A} (coro : Py A) : Py A := coro.

(** ** DelegatedOperationService *)

Definition queue_operation (operator : string) (delegation_target : option string)
    (context : option ExecutionContext) : Py DelegatedOperationDocument :=
  repo_queue_operation (mkQueueKwargs operator delegation_target context []).

Definition set_running (doc_id : ObjectId) : Py DelegatedOperationDocument :=
  repo_update_run_state doc_id RUNNING PyNone.

Definition set_completed (doc_id : ObjectId) (result : PyVal) :
    Py DelegatedOperationDocument :=
  repo_update_run_state doc_id COMPLETED result.

Definition set_failed (doc_id : ObjectId) (result : PyVal) :
    Py DelegatedOperationDocument :=
  repo_update_run_state doc_id FAILED result.

(** [doc.__dict__] as keyword arguments. *)
Definition doc_dict (doc : DelegatedOperationDocument) : QueueKwargs :=
  mkQueueKwargs (doc_operator doc) (doc_delegation_target doc) (doc_context doc)
                ["run_state"; "result"; "pinned"; "id"].

Definition rerun_operation (doc_id : ObjectId) : Py DelegatedOperationDocument :=
  doc <- repo_get doc_id ;;
  repo_queue_operation (doc_dict doc).

Definition get (doc_id : ObjectId) : Py DelegatedOperationDocument :=
  repo_get doc_id.

(** [kwargs] holds the keywords of the call that none of the named
    parameters took. *)
Definition list_operations (operator dataset_name : option string)
    (dataset_id : option PyVal) (run_state : option ExecutionRunState)
    (delegation_target : option string) (paging : option DelegatedOpPagingParams)
    (kwargs : list (string * PyVal)) : Py (list DelegatedOperationDocument) :=
  repo_list_operations
    (mkFilters operator dataset_name dataset_id run_state delegation_target kwargs)
    paging.

Definition AttributeError_request_params : PyExn :=
  mkExn "AttributeError"
        "AttributeError: 'NoneType' object has no attribute 'request_params'".

(** [_execute_operator]: a function that falls off its end returns [None]. *)
Definition _execute_operator (doc : DelegatedOperationDocument) : Py PyVal :=
  let operator_uri := doc_operator doc in
  match doc_context doc with
  | None => raise AttributeError_request_params
  | Some context =>
      let context :=
        mkContext (<["run_doc" := PyObjectId (doc_id doc)]> (request_params context)) in
      prepared <- call_prepare_operator_executor operator_uri (request_params context) ;;
      match prepared with
      | PreparedResult r err =>
          set_failed (doc_id doc) (PyExecutionResult r err) ;;
          ret PyNone
      | PreparedExecutor operator _ ctx =>
          set_running (doc_id doc) ;;
          operator_execute operator ctx
      end
  end.

(** The body of the [for op in queued_ops] loop. *)
Definition execute_one (log : bool) (op : DelegatedOperationDocument) : Py unit :=
  try_except
    (when log (logger_info (LogRunning (doc_id op) (doc_operator op))) ;;
     result <- asyncio_run (_execute_operator op) ;;
     set_completed (doc_id op) result ;;
     when log (logger_info (LogComplete (doc_id op))))
    (fun e =>
       let result := ExecutionResult_error (format_exc e) in
       set_failed (doc_id op) result ;;
       when log (logger_info (LogFailed (doc_id op)))).

(** The call [self.list_operations(operator=..., dataset_name=...,
    delegation_target=..., run_state=..., paging=..., **kwargs)]: it raises
    [TypeError] before [list_operations] is entered when [kwargs] repeats a
    keyword passed by name; otherwise a [dataset_id] keyword of [kwargs]
    binds to the parameter of that name and the other keywords go to the
    [**kwargs] of [list_operations]. *)
Definition call_list_operations (operator dataset_name delegation_target : option string)
    (run_state : option ExecutionRunState) (paging : option DelegatedOpPagingParams)
    (kwargs : list (string * PyVal)) : Py (list DelegatedOperationDocument) :=
  match keyword_clash passed_by_name kwargs with
  | Some name => raise (TypeError_multiple_values name)
  | None =>
      list_operations operator dataset_name (keyword_argument "dataset_id" kwargs)
                      run_state delegation_target paging
                      (other_keywords "dataset_id" kwargs)
  end.

Definition execute_queued_operations (operator delegation_target dataset_name : option string)
    (limit : option Z) (log : bool) (kwargs : list (string * PyVal)) : Py unit :=
  let paging :=
    match limit with
    | Some limit => Some (mkPaging limit)
    | None => None
    end in
  queued_ops <- call_list_operations operator dataset_name delegation_target
                                     (Some QUEUED) paging kwargs ;;
  for_each queued_ops (execute_one log).

End Service.

(** ** Vocabulary of the statements *)

(** The storage backend answers every repository call. *)
Definition no_faults (env : Env) : Prop := ∀ call, repo_fault env call = None.

(** The storage backend answers every write to document [i]. *)
Definition answers_for (env : Env) (i : ObjectId) : Prop :=
  ∀ s r, repo_fault env (CallUpdateRunState i s r) = None.

(** The repository hands out ids that are unique among stored documents. *)
Definition store_wf (st : list DelegatedOperationDocument) : Prop :=
  NoDup (doc_id <$> st).

Definition terminal (s : ExecutionRunState) : Prop := s = COMPLETED ∨ s = FAILED.

(** The stored document with id [i] is in a terminal run state. *)
Definition terminal_at (i : ObjectId) (w : World) : Prop :=
  ∃ d, find (has_id i) (store w) = Some d ∧ terminal (doc_run_state d).

(** No keyword of [kwargs] repeats one that [execute_queued_operations]
    passes by name to the listing. *)
Definition keywords_bind (kwargs : list (string * PyVal)) : Prop :=
  keyword_clash passed_by_name kwargs = None.

(** The filters that reach the repository's listing from
    [execute_queued_operations]: a [dataset_id] keyword of [kwargs] is the
    [dataset_id] filter, and the other keywords are the extra filters. *)
Definition queued_filters (operator delegation_target dataset_name : option string)
    (kwargs : list (string * PyVal)) : ListFilters :=
  mkFilters operator dataset_name (keyword_argument "dataset_id" kwargs)
            (Some QUEUED) delegation_target (other_keywords "dataset_id" kwargs).

(** The documents the repository returns for a listing. *)
Definition listed (env : Env) (f : ListFilters)
    (paging : option DelegatedOpPagingParams)
    (st : list DelegatedOperationDocument) : list DelegatedOperationDocument :=
  page paging (filter (fun d => matches env f d = true) st).

(** The request parameters after [request_params["run_doc"] = doc.id]. *)
Definition injected (doc : DelegatedOperationDocument) (context : ExecutionContext) :
    gmap string PyVal :=
  <["run_doc" := PyObjectId (doc_id doc)]> (request_params context).

Definition log_line (log : bool) (line : LogLine) : list Event :=
  if log then [EvLog line] else [].

Definition failed_with (op : DelegatedOperationDocument) (e : PyExn) : Event :=
  EvRepo (CallUpdateRunState (doc_id op) FAILED (ExecutionResult_error (format_exc e))).

(** The calls one iteration of the loop makes for [op] when the storage
    backend answers every call. *)
Definition doc_events (env : Env) (log : bool) (op : DelegatedOperationDocument) :
    list Event :=
  log_line log (LogRunning (doc_id op) (doc_operator op)) ++
  match doc_context op with
  | None =>
      failed_with op AttributeError_request_params :: log_line log (LogFailed (doc_id op))
  | Some context =>
      EvPrepare (doc_operator op) (injected op context) ::
      match prepare_operator_executor env (doc_operator op) (injected op context) with
      | inl e => failed_with op e :: log_line log (LogFailed (doc_id op))
      | inr (PreparedResult r err) =>
          EvRepo (CallUpdateRunState (doc_id op) FAILED (PyExecutionResult r err)) ::
          EvRepo (CallUpdateRunState (doc_id op) COMPLETED PyNone) ::
          log_line log (LogComplete (doc_id op))
      | inr (PreparedExecutor operator _ ctx) =>
          EvRepo (CallUpdateRunState (doc_id op) RUNNING PyNone) ::
          EvExecute (op_uri operator) ctx ::
          match op_execute operator ctx with
          | inl e => failed_with op e :: log_line log (LogFailed (doc_id op))
          | inr v =>
              EvRepo (CallUpdateRunState (doc_id op) COMPLETED v) ::
              log_line log (LogComplete (doc_id op))
          end
      end
  end.

(** The store after the [update_run_state] calls of a trace have been
    carried out in order. *)
Fixpoint replay (tr : list Event) (st : list DelegatedOperationDocument) :
    list DelegatedOperationDocument :=
  match tr with
  | [] => st
  | EvRepo (CallUpdateRunState i s r) :: tr' => replay tr' (store_update i s r st)
  | _ :: tr' => replay tr' st
  end.

(** The run states and results written for document [i] by a trace. *)
Fixpoint writes (i : ObjectId) (tr : list Event) : list (ExecutionRunState * PyVal) :=
  match tr with
  | [] => []
  | EvRepo (CallUpdateRunState j s r) :: tr' =>
      if bool_decide (j = i) then (s, r) :: writes i tr' else writes i tr'
  | _ :: tr' => writes i tr'
  end.

(** The run states document [i] is moved to by a trace, in order. *)
Definition transitions (i : ObjectId) (tr : list Event) : list ExecutionRunState :=
  fst <$> writes i tr.

(** The ids of the documents a trace writes to. *)
Fixpoint updated_ids (tr : list Event) : list ObjectId :=
  match tr with
  | [] => []
  | EvRepo (CallUpdateRunState j _ _) :: tr' => j :: updated_ids tr'
  | _ :: tr' => updated_ids tr'
  end.

Definition is_log (ev : Event) : bool :=
  match ev with EvLog _ => true | _ => false end.

(** A trace without its log lines. *)
Definition erase_log (tr : list Event) : list Event :=
  filter (fun ev => is_log ev = false) tr.

(** Modelled from the spec: the resolver "bind[s the operator] to an
    execution context using the operator identifier and request parameters";
    [prepare_operator_executor] is not part of the sources at hand. *)
Definition resolver_binds_params (env : Env) : Prop :=
  ∀ uri params operator executor ctx,
    prepare_operator_executor env uri params = inr (PreparedExecutor operator executor ctx) →
    request_params ctx = params.

(** Computations whose every run relates the world before to the world
    after by [P]. *)
Definition preserves (P : relation World) {A} (m : Py A) : Prop :=
  ∀ w r w', m w = (r, w') → P w w'.

(** The documents with an id other than [i] are as before. *)
Definition frame (i : ObjectId) : relation World :=
  fun w w' => ∀ j, j ≠ i → find (has_id j) (store w') = find (has_id j) (store w).

(** The world of the logging run against the world of the silent run, both
    started from a trace [base]: same store, and the same calls once the
    log lines are taken out. *)
Definition log_related (base : list Event) (w1 w0 : World) : Prop :=
  store w1 = store w0 ∧
  ∃ tr, trace w1 = base ++ tr ∧ trace w0 = base ++ erase_log tr.

(** Two computations that take related worlds to the same outcome and to
    related worlds. *)
Definition sim (base : list Event) {A} (m1 m0 : Py A) : Prop :=
  ∀ w1 w0, log_related base w1 w0 →
    (m1 w1).1 = (m0 w0).1 ∧ log_related base (m1 w1).2 (m0 w0).2.

(** ** A small deployment to run the service on *)

(** Returns the [msg] request parameter. *)
Definition echo_operator : Operator :=
  mkOperator "echo" (fun ctx => inr (default PyNone (request_params ctx !! "msg"))).

(** Raises on every execution. *)
Definition boom_operator : Operator :=
  mkOperator "boom" (fun _ => inl (mkExn "RuntimeError" "Traceback: RuntimeError: boom")).

(** A resolver that knows "echo" and "boom" and binds them to the request
    parameters; any other identifier yields a failure result. *)
Definition demo_prepare (uri : string) (params : gmap string PyVal) : PyExn + Prepared :=
  if bool_decide (uri = "echo") then
    inr (PreparedExecutor echo_operator PyNone (mkContext params))
  else if bool_decide (uri = "boom") then
    inr (PreparedExecutor boom_operator PyNone (mkContext params))
  else inr (PreparedResult PyNone (Some "operator not found")).

Definition demo_env : Env := mkEnv demo_prepare (fun _ => None) (fun _ _ _ _ => true).

(** The same deployment over a backend that rejects the COMPLETED write of
    document 1. *)
Definition write_timeout : PyExn :=
  mkExn "ServerSelectionTimeoutError" "Traceback: ServerSelectionTimeoutError".

Definition flaky_env : Env :=
  mkEnv demo_prepare
        (fun call => match call with
                     | CallUpdateRunState 1 COMPLETED _ => Some write_timeout
                     | _ => None
                     end)
        (fun _ _ _ _ => true).

Definition ctx_hi : ExecutionContext := mkContext {[ "msg" := PyStr "hi" ]}.

Definition doc_echo : DelegatedOperationDocument :=
  mkDoc 1 "echo" None (Some ctx_hi) QUEUED PyNone false.

Definition doc_missing : DelegatedOperationDocument :=
  mkDoc 2 "missing-op" None (Some ctx_hi) QUEUED PyNone false.

Definition doc_boom : DelegatedOperationDocument :=
  mkDoc 3 "boom" None (Some ctx_hi) QUEUED PyNone false.

Definition demo_world : World := mkWorld [doc_echo; doc_missing; doc_boom] [].

(** ** Vocabulary of the further properties *)

(** Computations whose every run appends to the trace a segment that
    satisfies [Q]. *)
Definition emits (Q : list Event → Prop) {A} (m : Py A) : Prop :=
  ∀ w r w', m w = (r, w') → ∃ seg, trace w' = trace w ++ seg ∧ Q seg.

(** Properties of segments that hold of the empty segment and of the
    concatenation of two segments that have them. *)
Class Monoidal (Q : list Event → Prop) : Prop := {
  monoidal_nil : Q [];
  monoidal_app s1 s2 : Q s1 → Q s2 → Q (s1 ++ s2) }.

(** Two documents that differ at most in run state and result. *)
Definition same_fields (d d' : DelegatedOperationDocument) : Prop :=
  doc_id d' = doc_id d ∧ doc_operator d' = doc_operator d ∧
  doc_delegation_target d' = doc_delegation_target d ∧
  doc_context d' = doc_context d ∧ doc_pinned d' = doc_pinned d.

(** The same documents at the same positions, up to run state and result. *)
Definition same_documents : relation World :=
  fun w w' => Forall2 same_fields (store w) (store w').

(** The documents with an id outside [ids] are as before. *)
Definition frame_set (ids : list ObjectId) : relation World :=
  fun w w' => ∀ j, j ∉ ids → find (has_id j) (store w') = find (has_id j) (store w).

(** A call that a pass over the documents [ids] may make: a listing, a
    resolution, an execution, a log line, or a write of a run state other
    than QUEUED to one of these documents. *)
Definition pass_call (ids : list ObjectId) (ev : Event) : Prop :=
  match ev with
  | EvRepo (CallUpdateRunState i s _) => i ∈ ids ∧ s ≠ QUEUED
  | EvRepo (CallListOperations _ _) => True
  | EvRepo (CallQueueOperation _) | EvRepo (CallGet _) => False
  | EvPrepare _ _ | EvExecute _ _ | EvLog _ => True
  end.

(** The previous call is a RUNNING write that the backend answered. *)
Definition answered_running (env : Env) (prev : option Event) : Prop :=
  ∃ i, prev = Some (EvRepo (CallUpdateRunState i RUNNING PyNone)) ∧
       repo_fault env (CallUpdateRunState i RUNNING PyNone) = None.

(** Every execution of a trace comes directly after an answered RUNNING
    write; [prev] is the call before the trace. *)
Fixpoint guarded (env : Env) (prev : option Event) (tr : list Event) : Prop :=
  match tr with
  | [] => True
  | ev :: tr' =>
      match ev with
      | EvExecute _ _ => answered_running env prev
      | _ => True
      end ∧ guarded env (Some ev) tr'
  end.

Definition is_execute (ev : Event) : bool :=
  match ev with EvExecute _ _ => true | _ => false end.

Definition is_prepare (ev : Event) : bool :=
  match ev with EvPrepare _ _ => true | _ => false end.

(** How many calls of a trace satisfy [p]. *)
Fixpoint count_events (p : Event → bool) (tr : list Event) : nat :=
  match tr with
  | [] => 0
  | ev :: tr' => (if p ev then 1 else 0) + count_events p tr'
  end.

(** At most [a] resolutions and at most [b] executions. *)
Definition at_most (a b : nat) (tr : list Event) : Prop :=
  (count_events is_prepare tr ≤ a)%nat ∧ (count_events is_execute tr ≤ b)%nat.

(** A resolution made for one of the documents [ids]: its request
    parameters carry the id of that document under "run_doc". *)
Definition resolves_for (ids : list ObjectId) (ev : Event) : Prop :=
  match ev with
  | EvPrepare _ params => ∃ i, i ∈ ids ∧ params !! "run_doc" = Some (PyObjectId i)
  | _ => True
  end.

(** The calls of one iteration of the loop, as a block that belongs to the
    document [op]: at most one resolution, made for [op]; at most one
    execution, directly after an answered RUNNING write; and no write to a
    document other than [op]. *)
Definition block_of (env : Env) (op : DelegatedOperationDocument)
    (seg : list Event) : Prop :=
  at_most 1 1 seg ∧
  Forall (resolves_for [doc_id op]) seg ∧
  Forall (pass_call [doc_id op]) seg ∧
  guarded env None seg.

(** The log lines of a trace, in order. *)
Fixpoint log_lines (tr : list Event) : list LogLine :=
  match tr with
  | [] => []
  | EvLog line :: tr' => line :: log_lines tr'
  | _ :: tr' => log_lines tr'
  end.

(** ** A second deployment: a resolver that raises, a document without
    context, and a backend that rejects FAILED writes *)

Definition import_error : PyExn :=
  mkExn "ImportError" "Traceback: ImportError: cannot import operator".

(** Raises for "broken" and resolves like [demo_prepare] otherwise. *)
Definition raising_prepare (uri : string) (params : gmap string PyVal) :
    PyExn + Prepared :=
  if bool_decide (uri = "broken") then inl import_error else demo_prepare uri params.

Definition raising_env : Env :=
  mkEnv raising_prepare (fun _ => None) (fun _ _ _ _ => true).

Definition doc_broken : DelegatedOperationDocument :=
  mkDoc 2 "broken" None (Some ctx_hi) QUEUED PyNone false.

Definition doc_nocontext : DelegatedOperationDocument :=
  mkDoc 3 "echo" None None QUEUED PyNone false.

Definition edge_world : World := mkWorld [doc_echo; doc_broken; doc_nocontext] [].

(** A store in which document 2 has already completed. *)
Definition doc_done : DelegatedOperationDocument :=
  mkDoc 2 "echo" None (Some ctx_hi) COMPLETED (PyStr "earlier") false.

Definition done_world : World := mkWorld [doc_echo; doc_done] [].

(** The deployment of [demo_env] over a backend that rejects every FAILED
    write of document 2. *)
Definition rejecting_env : Env :=
  mkEnv demo_prepare
        (fun call => match call with
                     | CallUpdateRunState 2 FAILED _ => Some write_timeout
                     | _ => None
                     end)
        (fun _ _ _ _ => true).

(** ** The store under [update_run_state] *)

Section StoreLemmas.

Implicit Types (st : list DelegatedOperationDocument) (i j : ObjectId).

Lemma write_run_state_id s r d : doc_id (write_run_state s r d) = doc_id d.
Proof. reflexivity. Qed.

Lemma store_update_ids i s r st :
  doc_id <$> store_update i s r st = doc_id <$> st.
Proof.
  unfold store_update. rewrite <- list_fmap_compose.
  apply list_fmap_ext. intros _ d _. simpl. by destruct (has_id i d).
Qed.

Lemma find_has_id_Some i st d :
  find (has_id i) st = Some d → doc_id d = i ∧ d ∈ st.
Proof.
  induction st as [|x st IH]; simpl; [done|].
  destruct (has_id i x) eqn:E.
  - intros [= <-]. split; [|left].
    unfold has_id in E. by apply bool_decide_eq_true in E.
  - intros H. destruct (IH H) as [? ?]. split; [done|by right].
Qed.

Lemma find_has_id_is_Some i st :
  i ∈ doc_id <$> st → is_Some (find (has_id i) st).
Proof.
  induction st as [|x st IH]; simpl.
  - intros H. by apply elem_of_nil in H.
  - intros H. destruct (has_id i x) eqn:E; [by eexists|].
    apply elem_of_cons in H as [->|H]; [|by apply IH].
    unfold has_id in E. by apply bool_decide_eq_false in E.
Qed.

Lemma find_has_id_elem i st d :
  find (has_id i) st = Some d → i ∈ doc_id <$> st.
Proof.
  intros H. apply find_has_id_Some in H as [<- H].
  by apply list_elem_of_fmap_2.
Qed.

(** In a well-formed store a document is found under its own id. *)
Lemma find_has_id_wf st d :
  store_wf st → d ∈ st → find (has_id (doc_id d)) st = Some d.
Proof.
  unfold store_wf. induction st as [|x st IH]; simpl.
  - intros _ H. by apply elem_of_nil in H.
  - rewrite NoDup_cons. intros [Hx Hnd] H.
    destruct (has_id (doc_id d) x) eqn:E.
    + apply elem_of_cons in H as [->|H]; [done|].
      unfold has_id in E. apply bool_decide_eq_true in E.
      exfalso. apply Hx. rewrite E. by apply list_elem_of_fmap_2.
    + apply elem_of_cons in H as [->|H]; [|by apply IH].
      unfold has_id in E. by apply bool_decide_eq_false in E.
Qed.

Lemma find_store_update i j s r st :
  find (has_id i) (store_update j s r st) =
  (fun d => if bool_decide (i = j) then write_run_state s r d else d)
    <$> find (has_id i) st.
Proof.
  unfold store_update. induction st as [|x st IH]; simpl; [done|].
  assert (Hid : has_id i (if has_id j x then write_run_state s r x else x) = has_id i x).
  { by destruct (has_id j x). }
  rewrite Hid. destruct (has_id i x) eqn:E; [|exact IH].
  simpl. f_equal. unfold has_id in *. apply bool_decide_eq_true in E.
  rewrite E. by repeat case_bool_decide.
Qed.

Lemma replay_app tr1 tr2 st : replay (tr1 ++ tr2) st = replay tr2 (replay tr1 st).
Proof.
  revert st. induction tr1 as [|ev tr1 IH]; intros st; simpl; [done|].
  destruct ev as [[]| | |]; apply IH.
Qed.

Lemma replay_ids tr st : doc_id <$> replay tr st = doc_id <$> st.
Proof.
  revert st. induction tr as [|ev tr IH]; intros st; simpl; [done|].
  destruct ev as [[]| | |]; rewrite IH; try done. apply store_update_ids.
Qed.

Lemma writes_app i tr1 tr2 : writes i (tr1 ++ tr2) = writes i tr1 ++ writes i tr2.
Proof.
  induction tr1 as [|ev tr1 IH]; simpl; [done|].
  destruct ev as [[]| | |]; try done. case_bool_decide; simpl; by f_equal.
Qed.

Lemma updated_ids_app tr1 tr2 :
  updated_ids (tr1 ++ tr2) = updated_ids tr1 ++ updated_ids tr2.
Proof.
  induction tr1 as [|ev tr1 IH]; simpl; [done|].
  destruct ev as [[]| | |]; simpl; by f_equal.
Qed.

(** A document that a trace never writes to has no transitions in it. *)
Lemma writes_not_updated i tr : i ∉ updated_ids tr → writes i tr = [].
Proof.
  induction tr as [|ev tr IH]; simpl; [done|].
  destruct ev as [[]| | |]; try done.
  rewrite not_elem_of_cons. intros [Hne H]. case_bool_decide; [congruence|auto].
Qed.

(** The document found under [i] after a replay is the one found before,
    rewritten by the writes the trace holds for [i]. *)
Lemma find_replay i tr st :
  find (has_id i) (replay tr st) =
  (fun d => foldl (fun d sr => write_run_state sr.1 sr.2 d) d (writes i tr))
    <$> find (has_id i) st.
Proof.
  revert st. induction tr as [|ev tr IH]; intros st; simpl.
  - by destruct (find _ st).
  - destruct ev as [[| j s r | |]| | |]; try apply IH.
    rewrite IH, find_store_update.
    destruct (find (has_id i) st) as [d|]; simpl; [|done].
    f_equal. case_bool_decide; case_bool_decide; try congruence; done.
Qed.

End StoreLemmas.

(** ** One iteration of the loop over a storage backend that answers *)

Section Answered.

Context (env : Env).

Lemma repo_update_run_state_ok i s r st tr :
  repo_fault env (CallUpdateRunState i s r) = None →
  is_Some (find (has_id i) st) →
  ∃ d, repo_update_run_state env i s r (mkWorld st tr) =
       (inr d, mkWorld (store_update i s r st)
                       (tr ++ [EvRepo (CallUpdateRunState i s r)])).
Proof.
  intros Hnf [d Hd]. exists (write_run_state s r d).
  unfold repo_update_run_state, repo_call. simpl. by rewrite Hnf, Hd.
Qed.

Lemma repo_update_run_state_fault i s r st tr e :
  repo_fault env (CallUpdateRunState i s r) = Some e →
  repo_update_run_state env i s r (mkWorld st tr) =
  (inl e, mkWorld st (tr ++ [EvRepo (CallUpdateRunState i s r)])).
Proof.
  intros Hf. unfold repo_update_run_state, repo_call. simpl. by rewrite Hf.
Qed.

Lemma store_update_is_Some i j s r st :
  is_Some (find (has_id i) st) → is_Some (find (has_id i) (store_update j s r st)).
Proof. intros [d Hd]. rewrite find_store_update, Hd. by eexists. Qed.

(** Run one [update_run_state] call of the goal on a store that holds the
    document. *)
Ltac step_update Hnf H :=
  match goal with
  | |- context [repo_update_run_state env ?i ?s ?r (mkWorld ?st ?tr)] =>
      let d := fresh "d" in
      let E := fresh "E" in
      destruct (repo_update_run_state_ok i s r st tr) as [d E];
      [ apply Hnf | repeat apply store_update_is_Some; exact H
      | rewrite E; clear E d; simpl ]
  end.

(** One iteration for a document whose writes the backend answers. *)
Lemma execute_one_answered log op w :
  answers_for env (doc_id op) →
  is_Some (find (has_id (doc_id op)) (store w)) →
  execute_one env log op w =
  (inr tt, mkWorld (replay (doc_events env log op) (store w))
                   (trace w ++ doc_events env log op)).
Proof.
  intros Hnf H. destruct w as [st tr]. simpl in H.
  unfold doc_events, injected, failed_with. rewrite replay_app.
  cbv [execute_one try_except bind asyncio_run _execute_operator set_completed
       set_failed set_running call_prepare_operator_executor operator_execute
       when logger_info emit ret raise store trace].
  destruct log; simpl;
    (destruct (doc_context op) as [c|]; simpl;
     [ destruct (prepare_operator_executor env _ _) as [e|[r err|o x ctx]]; simpl;
       [ | | destruct (op_execute o ctx) as [e|v]; simpl ] | ]);
    repeat step_update Hnf H;
    rewrite <- ?app_assoc; reflexivity.
Qed.

Lemma for_each_answered log ops w :
  Forall (fun op => answers_for env (doc_id op)) ops →
  Forall (fun op => is_Some (find (has_id (doc_id op)) (store w))) ops →
  for_each ops (execute_one env log) w =
  (inr tt, mkWorld (replay (flat_map (doc_events env log) ops) (store w))
                   (trace w ++ flat_map (doc_events env log) ops)).
Proof.
  revert w. induction ops as [|op ops IH]; intros w Hans Hall; simpl.
  - unfold ret. rewrite app_nil_r. by destruct w.
  - apply Forall_cons in Hall as [Hop Hall]. apply Forall_cons in Hans as [Ha Hans].
    unfold bind. rewrite execute_one_answered by done.
    rewrite IH; simpl.
    + by rewrite replay_app, app_assoc.
    + done.
    + eapply Forall_impl; [exact Hall|]. intros op' Hop'. simpl in *.
      apply find_has_id_is_Some. rewrite replay_ids.
      destruct Hop' as [d Hd]. by eapply find_has_id_elem.
Qed.

Lemma for_each_app {A} (xs ys : list A) body w :
  for_each (xs ++ ys) body w = bind (for_each xs body) (fun _ => for_each ys body) w.
Proof.
  revert w. induction xs as [|x xs IH]; intros w; simpl; [done|].
  unfold bind. destruct (body x w) as [[e|[]] w1]; [done|].
  rewrite IH. reflexivity.
Qed.

End Answered.

(** ** The listing call of a pass *)

Lemma keywords_bind_nil : keywords_bind [].
Proof. reflexivity. Qed.

Lemma queued_filters_nil operator delegation_target dataset_name :
  queued_filters operator delegation_target dataset_name [] =
  mkFilters operator dataset_name None (Some QUEUED) delegation_target [].
Proof. reflexivity. Qed.

(** Keywords that repeat none of those passed by name are bound: the call
    is the repository's listing with the filters of [queued_filters]. *)
Lemma call_list_operations_bound env operator dataset_name delegation_target paging
    kwargs :
  keywords_bind kwargs →
  call_list_operations env operator dataset_name delegation_target (Some QUEUED) paging
                       kwargs =
  repo_list_operations env
    (queued_filters operator delegation_target dataset_name kwargs) paging.
Proof. unfold call_list_operations, keywords_bind. by intros ->. Qed.

(** A keyword that repeats one passed by name: the call raises and nothing
    has happened. *)
Lemma call_list_operations_clash env operator dataset_name delegation_target run_state
    paging kwargs name w :
  keyword_clash passed_by_name kwargs = Some name →
  call_list_operations env operator dataset_name delegation_target run_state paging
                       kwargs w = (inl (TypeError_multiple_values name), w).
Proof. unfold call_list_operations. by intros ->. Qed.

Lemma paging_of_limit (limit : option Z) :
  match limit with Some l => Some (mkPaging l) | None => None end = mkPaging <$> limit.
Proof. by destruct limit. Qed.

Lemma execute_queued_operations_clash env operator delegation_target dataset_name limit
    log kwargs name w :
  keyword_clash passed_by_name kwargs = Some name →
  execute_queued_operations env operator delegation_target dataset_name limit log kwargs w
  = (inl (TypeError_multiple_values name), w).
Proof.
  intros H. unfold execute_queued_operations, bind.
  by rewrite (call_list_operations_clash _ _ _ _ _ _ _ name w H).
Qed.

Lemma execute_queued_operations_bound env operator delegation_target dataset_name limit
    log kwargs :
  keywords_bind kwargs →
  execute_queued_operations env operator delegation_target dataset_name limit log kwargs
  = bind (repo_list_operations env
            (queued_filters operator delegation_target dataset_name kwargs)
            (mkPaging <$> limit))
         (fun queued_ops => for_each queued_ops (execute_one env log)).
Proof.
  intros H. unfold execute_queued_operations.
  by rewrite paging_of_limit, call_list_operations_bound.
Qed.

Section NoFaults.

Context (env : Env) (Hnf : no_faults env).

Lemma execute_one_no_faults log op w :
  is_Some (find (has_id (doc_id op)) (store w)) →
  execute_one env log op w =
  (inr tt, mkWorld (replay (doc_events env log op) (store w))
                   (trace w ++ doc_events env log op)).
Proof. apply execute_one_answered. intros s r. apply Hnf. Qed.

Lemma for_each_no_faults log ops w :
  Forall (fun op => is_Some (find (has_id (doc_id op)) (store w))) ops →
  for_each ops (execute_one env log) w =
  (inr tt, mkWorld (replay (flat_map (doc_events env log) ops) (store w))
                   (trace w ++ flat_map (doc_events env log) ops)).
Proof.
  apply for_each_answered. apply Forall_forall. intros op _ s r. apply Hnf.
Qed.

Lemma listed_sublist f paging st : sublist (listed env f paging st) st.
Proof.
  unfold listed, page. destruct paging as [p|].
  - etrans; [apply sublist_take|]. apply sublist_filter.
  - apply sublist_filter.
Qed.

Lemma listed_stored f paging st :
  Forall (fun op => is_Some (find (has_id (doc_id op)) st)) (listed env f paging st).
Proof.
  apply Forall_forall. intros op Hop. apply find_has_id_is_Some.
  apply list_elem_of_fmap_2. eapply (sublist_subseteq _ _ (listed_sublist f paging st)); done.
Qed.

(** The whole pass: the listing call, then the iterations in the order of
    the listing. *)
Lemma execute_queued_operations_no_faults operator delegation_target dataset_name
    limit log kwargs w :
  keywords_bind kwargs →
  let f := queued_filters operator delegation_target dataset_name kwargs in
  let paging := mkPaging <$> limit in
  let ops := listed env f paging (store w) in
  execute_queued_operations env operator delegation_target dataset_name limit log kwargs w =
  (inr tt,
   mkWorld (replay (flat_map (doc_events env log) ops) (store w))
           (trace w ++ EvRepo (CallListOperations f paging) ::
                       flat_map (doc_events env log) ops)).
Proof.
  intros Hkw f paging ops.
  rewrite execute_queued_operations_bound by done.
  unfold repo_list_operations, repo_call, bind.
  fold f paging. rewrite Hnf. simpl. fold (listed env f paging (store w)). fold ops.
  rewrite for_each_no_faults; simpl.
  - by rewrite <- app_assoc.
  - apply listed_stored.
Qed.

End NoFaults.

(** ** Reasoning about computations over any storage backend *)

Lemma bind_inr {A B} (m : Py A) (k : A → Py B) w b w' :
  bind m k w = (inr b, w') → ∃ a w1, m w = (inr a, w1) ∧ k a w1 = (inr b, w').
Proof.
  unfold bind. destruct (m w) as [[e|a] w1]; [done|]. intros H. by exists a, w1.
Qed.

Lemma when_log_inv log line w r w' :
  when log (logger_info line) w = (r, w') →
  r = inr tt ∧ store w' = store w ∧ trace w' = trace w ++ log_line log line.
Proof.
  unfold when, logger_info, emit, ret, log_line. destruct log; intros [= <- <-]; simpl.
  - done.
  - by rewrite app_nil_r.
Qed.

Lemma repo_update_run_state_inv env i s r w res w' :
  repo_update_run_state env i s r w = (res, w') →
  trace w' = trace w ++ [EvRepo (CallUpdateRunState i s r)] ∧
  match res with
  | inr d =>
      store w' = store_update i s r (store w) ∧
      find (has_id i) (store w') = Some d ∧ doc_run_state d = s
  | inl _ => store w' = store w
  end.
Proof.
  unfold repo_update_run_state, repo_call.
  destruct (repo_fault env _); [by intros [= <- <-]|].
  destruct (find (has_id i) (store w)) as [d|] eqn:Hd; intros [= <- <-]; simpl; [|done].
  split; [done|]. split; [done|]. split; [|done].
  rewrite find_store_update, Hd. simpl. by rewrite bool_decide_eq_true_2.
Qed.

Section Preserves.

Context (P : relation World) `{!PreOrder P}.

Lemma preserves_ret {A} (a : A) : preserves P (ret a).
Proof. intros w r w' [= _ <-]. reflexivity. Qed.

Lemma preserves_raise {A} e : preserves P (@raise A e).
Proof. intros w r w' [= _ <-]. reflexivity. Qed.

Lemma preserves_bind {A B} (m : Py A) (k : A → Py B) :
  preserves P m → (∀ a, preserves P (k a)) → preserves P (bind m k).
Proof.
  intros Hm Hk w r w'. unfold bind. destruct (m w) as [[e|a] w1] eqn:E.
  - intros [= _ <-]. by eapply Hm.
  - intros H. etrans; [by eapply Hm|by eapply Hk].
Qed.

Lemma preserves_try_except {A} (body : Py A) handler :
  preserves P body → (∀ e, preserves P (handler e)) → preserves P (try_except body handler).
Proof.
  intros Hm Hk w r w'. unfold try_except. destruct (body w) as [[e|a] w1] eqn:E.
  - intros H. etrans; [by eapply Hm|by eapply Hk].
  - intros [= _ <-]. by eapply Hm.
Qed.

Lemma preserves_when b m : preserves P m → preserves P (when b m).
Proof. destruct b; [done|]. intros _. apply preserves_ret. Qed.

Lemma preserves_for_each {A} (xs : list A) body :
  (∀ x, x ∈ xs → preserves P (body x)) → preserves P (for_each xs body).
Proof.
  induction xs as [|x xs IH]; intros H; simpl.
  - apply preserves_ret.
  - apply preserves_bind.
    + apply H. by left.
    + intros _. apply IH. intros y Hy. apply H. by right.
Qed.

End Preserves.

#[local] Instance frame_preorder i : PreOrder (frame i).
Proof.
  split.
  - by intros w j _.
  - intros w1 w2 w3 H12 H23 j Hj. by rewrite H23, H12.
Qed.

Section AnyBackend.

Context (env : Env).

Lemma frame_same_store i w w' : store w' = store w → frame i w w'.
Proof. intros H j _. by rewrite H. Qed.

Lemma frame_update i s r : preserves (frame i) (repo_update_run_state env i s r).
Proof.
  intros w res w' H. apply repo_update_run_state_inv in H as [_ H].
  destruct res as [e|d].
  - by apply frame_same_store.
  - destruct H as (Hst & _ & _). intros j Hj.
    rewrite Hst, find_store_update. rewrite bool_decide_eq_false_2 by done.
    by destruct (find (has_id j) (store w)).
Qed.

Lemma frame_log i log line : preserves (frame i) (when log (logger_info line)).
Proof.
  intros w r w' H. apply when_log_inv in H as (_ & H & _). by apply frame_same_store.
Qed.

Lemma frame_execute_operator op :
  preserves (frame (doc_id op)) (_execute_operator env op).
Proof.
  unfold _execute_operator, set_failed, set_running.
  destruct (doc_context op) as [c|].
  - apply (preserves_bind (frame (doc_id op))).
    + intros w r w' [= _ <-]. by apply frame_same_store.
    + intros [r err|o x ctx].
      * apply (preserves_bind (frame (doc_id op))); [apply frame_update|].
        intros _. apply (preserves_ret (frame (doc_id op))).
      * apply (preserves_bind (frame (doc_id op))); [apply frame_update|].
        intros _ w r w' [= _ <-]. by apply frame_same_store.
  - apply (preserves_raise (frame (doc_id op))).
Qed.

(** One iteration writes to no document but its own. *)
Lemma frame_execute_one log op : preserves (frame (doc_id op)) (execute_one env log op).
Proof.
  unfold execute_one, set_failed, set_completed.
  apply (preserves_try_except (frame (doc_id op))).
  - apply (preserves_bind (frame (doc_id op))); [apply frame_log|]. intros _.
    apply (preserves_bind (frame (doc_id op))); [apply frame_execute_operator|].
    intros result.
    apply (preserves_bind (frame (doc_id op))); [apply frame_update|]. intros _.
    apply frame_log.
  - intros e. apply (preserves_bind (frame (doc_id op))); [apply frame_update|].
    intros _. apply frame_log.
Qed.

(** An iteration that returns leaves its document in a terminal state. *)
Lemma execute_one_returns_terminal log op w w' :
  execute_one env log op w = (inr tt, w') → terminal_at (doc_id op) w'.
Proof.
  unfold execute_one, try_except.
  match goal with |- context [bind ?m ?k w] => destruct (bind m k w) as [[e|[]] w1] eqn:Hb end.
  - intros H. apply bind_inr in H as (d & w2 & Hf & Hl).
    apply repo_update_run_state_inv in Hf as (_ & _ & Hd & Hs).
    apply when_log_inv in Hl as (_ & Hst & _).
    exists d. rewrite Hst. split; [done|]. by right.
  - intros [= <-].
    apply bind_inr in Hb as (? & w2 & _ & Hb).
    apply bind_inr in Hb as (result & w3 & _ & Hb).
    apply bind_inr in Hb as (d & w4 & Hc & Hl).
    apply repo_update_run_state_inv in Hc as (_ & _ & Hd & Hs).
    apply when_log_inv in Hl as (_ & Hst & _).
    exists d. rewrite Hst. split; [done|]. by left.
Qed.

Lemma terminal_at_execute_one i log op w w' :
  terminal_at i w → execute_one env log op w = (inr tt, w') → terminal_at i w'.
Proof.
  intros Ht H. destruct (decide (i = doc_id op)) as [->|Hne].
  - by eapply execute_one_returns_terminal.
  - destruct Ht as (d & Hd & Hs). exists d. split; [|done].
    by rewrite (frame_execute_one log op w _ w' H i Hne).
Qed.

Lemma terminal_at_for_each i log ops w w' :
  terminal_at i w → for_each ops (execute_one env log) w = (inr tt, w') →
  terminal_at i w'.
Proof.
  revert w. induction ops as [|op ops IH]; intros w Ht; simpl.
  - by intros [= <-].
  - intros H. apply bind_inr in H as ([] & w1 & H1 & H2).
    eapply IH; [|done]. by eapply terminal_at_execute_one.
Qed.

(** A loop that returns leaves every document it ran over in a terminal
    state. *)
Lemma for_each_returns_terminal log ops w w' :
  for_each ops (execute_one env log) w = (inr tt, w') →
  ∀ op, op ∈ ops → terminal_at (doc_id op) w'.
Proof.
  revert w. induction ops as [|op' ops IH]; intros w H op Hop.
  - by apply elem_of_nil in Hop.
  - simpl in H. apply bind_inr in H as ([] & w1 & H1 & H2).
    apply elem_of_cons in Hop as [->|Hop].
    + eapply terminal_at_for_each; [|done]. by eapply execute_one_returns_terminal.
    + by eapply IH.
Qed.

(** The listing call returns the documents of [listed] and leaves the store
    as it is. *)
Lemma list_operations_inv operator dataset_name delegation_target paging kwargs w ops w' :
  call_list_operations env operator dataset_name delegation_target (Some QUEUED)
                       paging kwargs w = (inr ops, w') →
  let f := queued_filters operator delegation_target dataset_name kwargs in
  ops = listed env f paging (store w) ∧ store w' = store w ∧
  trace w' = trace w ++ [EvRepo (CallListOperations f paging)] ∧
  keywords_bind kwargs.
Proof.
  unfold call_list_operations, keywords_bind.
  destruct (keyword_clash passed_by_name kwargs); [done|].
  unfold list_operations, repo_list_operations, repo_call.
  destruct (repo_fault env _); [done|]. by intros [= <- <-].
Qed.

(** A pass that returns leaves every listed document in a terminal state. *)
Lemma pass_returns_terminal operator delegation_target dataset_name limit log kwargs
    w w' op :
  execute_queued_operations env operator delegation_target dataset_name limit log
                            kwargs w = (inr tt, w') →
  op ∈ listed env (queued_filters operator delegation_target dataset_name kwargs)
              (mkPaging <$> limit) (store w) →
  terminal_at (doc_id op) w'.
Proof.
  intros Hrun Hop. unfold execute_queued_operations in Hrun.
  apply bind_inr in Hrun as (ops & w1 & Hlist & Hloop).
  assert (Hp : match limit with Some l => Some (mkPaging l) | None => None end
               = mkPaging <$> limit) by (by destruct limit).
  rewrite Hp in Hlist.
  apply list_operations_inv in Hlist as (-> & Hst & _).
  eapply for_each_returns_terminal; [exact Hloop|exact Hop].
Qed.

End AnyBackend.

(** ** Two runs that differ in the log flag *)

Lemma erase_log_app tr1 tr2 : erase_log (tr1 ++ tr2) = erase_log tr1 ++ erase_log tr2.
Proof. apply filter_app. Qed.

Section LogFlag.

Context (env : Env) (base : list Event).

Lemma log_related_event ev st1 st0 w1 w0 :
  is_log ev = false → log_related base w1 w0 → st1 = st0 →
  log_related base (mkWorld st1 (trace w1 ++ [ev])) (mkWorld st0 (trace w0 ++ [ev])).
Proof.
  intros Hev (_ & tr & H1 & H0) Hst. split; [done|]. exists (tr ++ [ev]). simpl.
  rewrite H1, H0, erase_log_app, !app_assoc. split; [done|]. f_equal.
  unfold erase_log. by rewrite filter_cons_True.
Qed.

Lemma sim_ret {A} (a : A) : sim base (ret a) (ret a).
Proof. by intros w1 w0 H. Qed.

Lemma sim_raise {A} e : sim base (@raise A e) (raise e).
Proof. by intros w1 w0 H. Qed.

Lemma sim_bind {A B} (m1 m0 : Py A) (k1 k0 : A → Py B) :
  sim base m1 m0 → (∀ a, sim base (k1 a) (k0 a)) → sim base (bind m1 k1) (bind m0 k0).
Proof.
  intros Hm Hk w1 w0 H. unfold bind. destruct (Hm w1 w0 H) as [Hr Hw].
  destruct (m1 w1) as [[e1|a1] w1'], (m0 w0) as [[e0|a0] w0'];
    simpl in *; simplify_eq; [done|by apply Hk].
Qed.

Lemma sim_try_except {A} (b1 b0 : Py A) h1 h0 :
  sim base b1 b0 → (∀ e, sim base (h1 e) (h0 e)) →
  sim base (try_except b1 h1) (try_except b0 h0).
Proof.
  intros Hm Hk w1 w0 H. unfold try_except. destruct (Hm w1 w0 H) as [Hr Hw].
  destruct (b1 w1) as [[e1|a1] w1'], (b0 w0) as [[e0|a0] w0'];
    simpl in *; simplify_eq; [by apply Hk|done].
Qed.

Lemma sim_for_each {A} (xs : list A) (body1 body0 : A → Py unit) :
  (∀ x, sim base (body1 x) (body0 x)) → sim base (for_each xs body1) (for_each xs body0).
Proof.
  intros H. induction xs as [|x xs IH]; simpl.
  - apply sim_ret.
  - apply sim_bind; [apply H|]. intros _. apply IH.
Qed.

(** A log line is all that the flag adds. *)
Lemma sim_log line : sim base (when true (logger_info line)) (when false (logger_info line)).
Proof.
  intros w1 w0 (Hst & tr & H1 & H0). split; [done|]. split; [done|].
  exists (tr ++ [EvLog line]). simpl. rewrite H1, H0, erase_log_app, app_assoc.
  split; [done|]. change (erase_log [EvLog line]) with (@nil Event).
  by rewrite app_nil_r.
Qed.

Lemma sim_repo_call {A} call body : sim base (@repo_call env A call body) (repo_call env call body).
Proof.
  intros w1 w0 H. unfold repo_call. destruct H as [Hst H]. rewrite Hst.
  destruct (repo_fault env call).
  - split; [done|]. by apply log_related_event.
  - destruct (body (store w0)) as [e|[a st']].
    + split; [done|]. by apply log_related_event.
    + split; [done|]. by apply log_related_event.
Qed.

Lemma sim_prepare uri params :
  sim base (call_prepare_operator_executor env uri params)
           (call_prepare_operator_executor env uri params).
Proof.
  intros w1 w0 H. split; [done|]. simpl. apply log_related_event; [done..|apply H].
Qed.

Lemma sim_operator_execute o ctx :
  sim base (operator_execute o ctx) (operator_execute o ctx).
Proof.
  intros w1 w0 H. split; [done|]. simpl. apply log_related_event; [done..|apply H].
Qed.

Lemma sim_execute_operator op : sim base (_execute_operator env op) (_execute_operator env op).
Proof.
  unfold _execute_operator. destruct (doc_context op) as [c|]; [|apply sim_raise].
  apply sim_bind; [apply sim_prepare|]. intros [r err|o x ctx].
  - apply sim_bind; [apply sim_repo_call|]. intros _. apply sim_ret.
  - apply sim_bind; [apply sim_repo_call|]. intros _. apply sim_operator_execute.
Qed.

Lemma sim_execute_one op : sim base (execute_one env true op) (execute_one env false op).
Proof.
  unfold execute_one. apply sim_try_except.
  - apply sim_bind; [apply sim_log|]. intros _.
    apply sim_bind; [apply sim_execute_operator|]. intros result.
    apply sim_bind; [apply sim_repo_call|]. intros _. apply sim_log.
  - intros e. apply sim_bind; [apply sim_repo_call|]. intros _. apply sim_log.
Qed.

Lemma sim_execute_queued_operations operator delegation_target dataset_name limit kwargs :
  sim base
    (execute_queued_operations env operator delegation_target dataset_name limit true kwargs)
    (execute_queued_operations env operator delegation_target dataset_name limit false kwargs).
Proof.
  unfold execute_queued_operations, call_list_operations.
  apply sim_bind; [|intros ops; apply sim_for_each, sim_execute_one].
  destruct (keyword_clash passed_by_name kwargs); [apply sim_raise|apply sim_repo_call].
Qed.

End LogFlag.

(** ** The documents of a pass *)

Section Pass.

Context (env : Env).

Lemma fresh_id_fresh st : fresh_id st ∉ doc_id <$> st.
Proof.
  unfold fresh_id. intros H. apply max_list_elem_of_le in H. lia.
Qed.

Lemma find_app_l (p : DelegatedOperationDocument → bool) l k d :
  find p l = Some d → find p (l ++ k) = Some d.
Proof.
  induction l as [|x l IH]; simpl; [done|]. by destruct (p x).
Qed.

Lemma queue_operation_store_wf kw w d w' :
  store_wf (store w) → repo_queue_operation env kw w = (inr d, w') → store_wf (store w').
Proof.
  unfold repo_queue_operation, repo_call, store_wf.
  destruct (repo_fault env _); [done|]. intros Hwf [= <- <-]. simpl.
  rewrite fmap_app. apply NoDup_app. split; [done|]. split.
  - intros i Hi. simpl. rewrite list_elem_of_singleton. intros ->.
    by apply fresh_id_fresh in Hi.
  - simpl. apply NoDup_singleton.
Qed.

Lemma update_run_state_store_wf i s r w res w' :
  store_wf (store w) → repo_update_run_state env i s r w = (res, w') → store_wf (store w').
Proof.
  intros Hwf H. apply repo_update_run_state_inv in H as [_ H]. unfold store_wf.
  destruct res as [e|d].
  - by rewrite H.
  - destruct H as (-> & _). by rewrite store_update_ids.
Qed.

Lemma listed_queued f paging st op :
  f_run_state f = Some QUEUED → op ∈ listed env f paging st → doc_run_state op = QUEUED.
Proof.
  intros Hf Hop.
  assert (Hin : op ∈ filter (fun d => matches env f d = true) st).
  { unfold listed, page in Hop. destruct paging; [|done].
    by eapply (sublist_subseteq _ _ (sublist_take _ _)). }
  apply list_elem_of_filter in Hin as [Hm _].
  unfold matches in Hm. rewrite Hf in Hm. simpl in Hm.
  repeat (apply andb_prop in Hm as [Hm ?]).
  match goal with H : bool_decide _ = true |- _ => apply bool_decide_eq_true in H; congruence end.
Qed.

Lemma listed_NoDup f paging st :
  store_wf st → NoDup (doc_id <$> listed env f paging st).
Proof.
  unfold store_wf. intros H. apply (sublist_NoDup _ (doc_id <$> st)); [done|].
  apply fmap_sublist, listed_sublist.
Qed.

Lemma updated_ids_doc_events log op j :
  j ∈ updated_ids (doc_events env log op) → j = doc_id op.
Proof.
  unfold doc_events, failed_with, log_line.
  destruct log; simpl;
    (destruct (doc_context op) as [c|]; simpl;
     [ destruct (prepare_operator_executor env _ _) as [e|[r err|o x ctx]]; simpl;
       [ | | destruct (op_execute o ctx) as [e|v]; simpl ] | ]);
    intros H;
    repeat match goal with
           | H : _ ∈ _ :: _ |- _ => apply elem_of_cons in H as [H|H]
           | H : _ ∈ [] |- _ => by apply elem_of_nil in H
           end; done.
Qed.

Lemma updated_ids_flat_map log ops j :
  j ∈ updated_ids (flat_map (doc_events env log) ops) → j ∈ doc_id <$> ops.
Proof.
  induction ops as [|op ops IH]; simpl.
  - intros H. by apply elem_of_nil in H.
  - rewrite updated_ids_app, elem_of_app, elem_of_cons. intros [H|H].
    + left. by eapply updated_ids_doc_events.
    + right. by apply IH.
Qed.

Lemma writes_flat_map_other log ops i :
  i ∉ doc_id <$> ops → writes i (flat_map (doc_events env log) ops) = [].
Proof.
  intros H. apply writes_not_updated. intros Hi. by apply updated_ids_flat_map in Hi.
Qed.

(** Where the ids of the listing are distinct, the calls of one document
    sit in the trace as one block, and nothing else writes to it. *)
Lemma flat_map_doc_events_split log ops op :
  NoDup (doc_id <$> ops) → op ∈ ops →
  ∃ t1 t2,
    flat_map (doc_events env log) ops = t1 ++ doc_events env log op ++ t2 ∧
    writes (doc_id op) t1 = [] ∧ writes (doc_id op) t2 = [].
Proof.
  intros Hnd Hop. apply list_elem_of_split in Hop as (l1 & l2 & ->).
  exists (flat_map (doc_events env log) l1), (flat_map (doc_events env log) l2).
  rewrite fmap_app, fmap_cons in Hnd.
  apply NoDup_app in Hnd as (_ & H1 & H2). apply NoDup_cons in H2 as [H2 _].
  split; [by rewrite flat_map_app|].
  split; apply writes_flat_map_other; [|done].
  intros Hi. apply (H1 _ Hi). by left.
Qed.

(** What a pass over an answering backend does for one listed document. *)
Lemma pass_document operator delegation_target dataset_name limit log kwargs w op :
  keywords_bind kwargs → no_faults env → store_wf (store w) →
  op ∈ listed env (queued_filters operator delegation_target dataset_name kwargs)
              (mkPaging <$> limit) (store w) →
  ∃ w' t1 t2,
    execute_queued_operations env operator delegation_target dataset_name limit log
                              kwargs w = (inr tt, w') ∧
    trace w' = trace w ++ t1 ++ doc_events env log op ++ t2 ∧
    writes (doc_id op) (t1 ++ doc_events env log op ++ t2) =
      writes (doc_id op) (doc_events env log op) ∧
    find (has_id (doc_id op)) (store w') =
      Some (foldl (fun d sr => write_run_state sr.1 sr.2 d) op
                  (writes (doc_id op) (doc_events env log op))).
Proof.
  intros Hkw Hnf Hwf Hop.
  set (f := queued_filters operator delegation_target dataset_name kwargs) in *.
  set (paging := mkPaging <$> limit) in *.
  destruct (flat_map_doc_events_split log _ op (listed_NoDup f paging _ Hwf) Hop)
    as (t1 & t2 & Hsplit & Ht1 & Ht2).
  eexists _, (EvRepo (CallListOperations f paging) :: t1), t2.
  split; [by apply execute_queued_operations_no_faults|]. simpl.
  fold f paging. rewrite Hsplit.
  split; [done|].
  assert (Hw : writes (doc_id op) (t1 ++ doc_events env log op ++ t2) =
               writes (doc_id op) (doc_events env log op)).
  { by rewrite !writes_app, Ht1, Ht2, app_nil_r. }
  split; [done|].
  rewrite find_replay, Hw.
  rewrite (find_has_id_wf (store w) op Hwf); [done|].
  by eapply (sublist_subseteq _ _ (listed_sublist env f paging (store w))).
Qed.

End Pass.

(** ** The claims *)

(** C1: for every stored document, [rerun_operation(id)] queues and returns a
    new document whose operator, context and delegation target are those of
    the original and whose id differs from the original's; the store is the
    old store with the new document appended, so the original is found
    unchanged under its id. *)
Theorem rerun_operation_queues_copy env i orig w :
  no_faults env →
  find (has_id i) (store w) = Some orig →
  ∃ new w',
    rerun_operation env i w = (inr new, w') ∧
    doc_operator new = doc_operator orig ∧
    doc_context new = doc_context orig ∧
    doc_delegation_target new = doc_delegation_target orig ∧
    doc_id new ≠ doc_id orig ∧
    doc_run_state new = QUEUED ∧
    store w' = store w ++ [new] ∧
    find (has_id i) (store w') = Some orig.
Proof.
  intros Hnf Hfind.
  unfold rerun_operation, bind, repo_get, repo_queue_operation, repo_call.
  rewrite Hnf, Hfind, Hnf. simpl.
  eexists _, _. split; [reflexivity|]. simpl.
  repeat split; try done.
  - intros Heq. apply (fresh_id_fresh (store w)). rewrite Heq.
    apply find_has_id_Some in Hfind as [_ Hin]. by apply list_elem_of_fmap_2.
  - by apply find_app_l.
Qed.

(** C3: over a backend that answers, called with keywords that repeat none
    of those it passes by name to the listing, [execute_queued_operations]
    returns without raising; its calls are the listing followed by the calls
    of each
    listed document, one document after the other in the order of the
    listing (the calls of a document whose execution raises end with its
    FAILED write, and those of the next document follow); every listed
    document has been taken to a terminal state. *)
Theorem execute_queued_operations_sequential env operator delegation_target
    dataset_name limit log kwargs w :
  keywords_bind kwargs →
  no_faults env →
  let f := queued_filters operator delegation_target dataset_name kwargs in
  let paging := mkPaging <$> limit in
  let ops := listed env f paging (store w) in
  ∃ w',
    execute_queued_operations env operator delegation_target dataset_name limit log
                              kwargs w = (inr tt, w') ∧
    trace w' = trace w ++ EvRepo (CallListOperations f paging) ::
                          flat_map (doc_events env log) ops ∧
    ∀ op, op ∈ ops → terminal_at (doc_id op) w'.
Proof.
  intros Hkw Hnf f paging ops.
  pose proof (execute_queued_operations_no_faults env Hnf operator delegation_target
                dataset_name limit log kwargs w Hkw) as Hrun.
  eexists. split; [exact Hrun|]. split; [done|].
  intros op Hop. by eapply (pass_returns_terminal env).
Qed.

(** C4: when the execution of a listed document's resolved operator raises,
    the pass still returns; the FAILED write carrying the error trace of the
    exception is the call that follows the operator's execution, and the
    stored document ends FAILED with that error trace as its result.  The
    pass is one that lists: its keywords repeat none of those passed by name
    to the listing. *)
Theorem execution_exception_recorded env operator delegation_target dataset_name
    limit log kwargs w op context o x ctx e :
  keywords_bind kwargs →
  no_faults env → store_wf (store w) →
  op ∈ listed env (queued_filters operator delegation_target dataset_name kwargs)
              (mkPaging <$> limit) (store w) →
  doc_context op = Some context →
  prepare_operator_executor env (doc_operator op) (injected op context) =
    inr (PreparedExecutor o x ctx) →
  op_execute o ctx = inl e →
  ∃ w' t1 t2 d,
    execute_queued_operations env operator delegation_target dataset_name limit log
                              kwargs w = (inr tt, w') ∧
    trace w' = t1 ++ [EvExecute (op_uri o) ctx;
                      EvRepo (CallUpdateRunState (doc_id op) FAILED
                                (ExecutionResult_error (format_exc e)))] ++ t2 ∧
    find (has_id (doc_id op)) (store w') = Some d ∧
    doc_run_state d = FAILED ∧
    doc_result d = ExecutionResult_error (format_exc e).
Proof.
  intros Hkw Hnf Hwf Hop Hc Hp He.
  destruct (pass_document env operator delegation_target dataset_name limit log kwargs
              w op Hkw Hnf Hwf Hop) as (w' & t1 & t2 & Hrun & Htr & _ & Hfind).
  unfold doc_events in Htr, Hfind. rewrite Hc, Hp, He in Htr, Hfind.
  rewrite writes_app in Hfind. unfold failed_with in *.
  eexists w', _, _, _. split; [exact Hrun|]. split; [|split; [exact Hfind|]].
  - rewrite Htr.
    instantiate (1 := log_line log (LogFailed (doc_id op)) ++ t2).
    instantiate (1 := trace w ++ t1 ++ log_line log (LogRunning (doc_id op) (doc_operator op))
                        ++ [EvPrepare (doc_operator op) (injected op context);
                            EvRepo (CallUpdateRunState (doc_id op) RUNNING PyNone)]).
    rewrite <- !app_assoc. reflexivity.
  - destruct log; simpl; rewrite !bool_decide_eq_true_2 by done; simpl; done.
Qed.

(** C5: after a pass of [execute_queued_operations] that returned to its
    caller, every document that the pass listed is stored in a terminal run
    state, COMPLETED or FAILED, whatever the backend did in between. *)
Theorem complete_pass_leaves_terminal env operator delegation_target dataset_name
    limit log kwargs w w' op :
  execute_queued_operations env operator delegation_target dataset_name limit log
                            kwargs w = (inr tt, w') →
  op ∈ listed env (queued_filters operator delegation_target dataset_name kwargs)
              (mkPaging <$> limit) (store w) →
  terminal_at (doc_id op) w'.
Proof. apply pass_returns_terminal. Qed.

(** C6: when the resolution of a listed document succeeds and the operator's
    execution returns, the document is listed as QUEUED, its calls are, in
    this order, the resolution, the RUNNING write, the operator's execution
    and the COMPLETED write carrying the value the execution returned; the
    run states written for it are RUNNING then COMPLETED, and it is stored
    COMPLETED with that value as its result.  The pass is one that lists: its
    keywords repeat none of those passed by name to the listing. *)
Theorem successful_execution_completes env operator delegation_target dataset_name
    limit log kwargs w op context o x ctx v :
  keywords_bind kwargs →
  no_faults env → store_wf (store w) →
  op ∈ listed env (queued_filters operator delegation_target dataset_name kwargs)
              (mkPaging <$> limit) (store w) →
  doc_context op = Some context →
  prepare_operator_executor env (doc_operator op) (injected op context) =
    inr (PreparedExecutor o x ctx) →
  op_execute o ctx = inr v →
  ∃ w' tr t1 t2 d,
    execute_queued_operations env operator delegation_target dataset_name limit log
                              kwargs w = (inr tt, w') ∧
    doc_run_state op = QUEUED ∧
    trace w' = trace w ++ tr ∧
    tr = t1 ++ [EvPrepare (doc_operator op) (injected op context);
                EvRepo (CallUpdateRunState (doc_id op) RUNNING PyNone);
                EvExecute (op_uri o) ctx;
                EvRepo (CallUpdateRunState (doc_id op) COMPLETED v)] ++ t2 ∧
    transitions (doc_id op) tr = [RUNNING; COMPLETED] ∧
    find (has_id (doc_id op)) (store w') = Some d ∧
    doc_run_state d = COMPLETED ∧
    doc_result d = v.
Proof.
  intros Hkw Hnf Hwf Hop Hc Hp He.
  destruct (pass_document env operator delegation_target dataset_name limit log kwargs
              w op Hkw Hnf Hwf Hop) as (w' & t1 & t2 & Hrun & Htr & Hw & Hfind).
  assert (Hev : doc_events env log op =
                log_line log (LogRunning (doc_id op) (doc_operator op)) ++
                [EvPrepare (doc_operator op) (injected op context);
                 EvRepo (CallUpdateRunState (doc_id op) RUNNING PyNone);
                 EvExecute (op_uri o) ctx;
                 EvRepo (CallUpdateRunState (doc_id op) COMPLETED v)] ++
                log_line log (LogComplete (doc_id op))).
  { unfold doc_events. by rewrite Hc, Hp, He. }
  assert (Hwr : writes (doc_id op) (doc_events env log op) =
                [(RUNNING, PyNone); (COMPLETED, v)]).
  { rewrite Hev. destruct log; simpl; rewrite !bool_decide_eq_true_2 by done; done. }
  exists w', (t1 ++ doc_events env log op ++ t2),
         (t1 ++ log_line log (LogRunning (doc_id op) (doc_operator op))),
         (log_line log (LogComplete (doc_id op)) ++ t2).
  eexists. split; [exact Hrun|].
  split; [eapply listed_queued; [|exact Hop]; reflexivity|].
  split; [exact Htr|].
  split; [rewrite Hev, <- !app_assoc; reflexivity|].
  split; [unfold transitions; by rewrite Hw, Hwr|].
  rewrite Hwr in Hfind. by split; [exact Hfind|].
Qed.

(** What the pass does for a listed document whose resolution yields a
    failure result: the FAILED write is followed by a COMPLETED write with no
    result, which is what the store keeps. *)
Lemma resolution_failure_overwritten env operator delegation_target dataset_name
    limit log kwargs w op context r err :
  keywords_bind kwargs →
  no_faults env → store_wf (store w) →
  op ∈ listed env (queued_filters operator delegation_target dataset_name kwargs)
              (mkPaging <$> limit) (store w) →
  doc_context op = Some context →
  prepare_operator_executor env (doc_operator op) (injected op context) =
    inr (PreparedResult r err) →
  ∃ w' tr d,
    execute_queued_operations env operator delegation_target dataset_name limit log
                              kwargs w = (inr tt, w') ∧
    trace w' = trace w ++ tr ∧
    writes (doc_id op) tr = [(FAILED, PyExecutionResult r err); (COMPLETED, PyNone)] ∧
    find (has_id (doc_id op)) (store w') = Some d ∧
    doc_run_state d = COMPLETED ∧
    doc_result d = PyNone.
Proof.
  intros Hkw Hnf Hwf Hop Hc Hp.
  destruct (pass_document env operator delegation_target dataset_name limit log kwargs
              w op Hkw Hnf Hwf Hop) as (w' & t1 & t2 & Hrun & Htr & Hw & Hfind).
  assert (Hwr : writes (doc_id op) (doc_events env log op) =
                [(FAILED, PyExecutionResult r err); (COMPLETED, PyNone)]).
  { unfold doc_events. rewrite Hc, Hp.
    destruct log; simpl; rewrite !bool_decide_eq_true_2 by done; done. }
  exists w', (t1 ++ doc_events env log op ++ t2). eexists.
  split; [exact Hrun|]. split; [exact Htr|]. split; [by rewrite Hw|].
  rewrite Hwr in Hfind. by split; [exact Hfind|].
Qed.

(** C2 (the code at a failing input): "missing-op" does not resolve.  The
    pass writes FAILED with the resolver's result for document 2, never
    writes RUNNING for it and never executes an operator for it, and then
    writes COMPLETED with no result: the document ends the pass COMPLETED,
    not FAILED. *)
Theorem missing_operator_ends_completed :
  ∃ w' d,
    execute_queued_operations demo_env (Some "missing-op") None None None false []
                              demo_world = (inr tt, w') ∧
    trace w' =
      [EvRepo (CallListOperations (queued_filters (Some "missing-op") None None []) None);
       EvPrepare "missing-op" (injected doc_missing ctx_hi);
       EvRepo (CallUpdateRunState 2 FAILED
                 (PyExecutionResult PyNone (Some "operator not found")));
       EvRepo (CallUpdateRunState 2 COMPLETED PyNone)] ∧
    find (has_id 2) (store w') = Some d ∧
    doc_run_state d = COMPLETED ∧
    doc_result d = PyNone.
Proof.
  eexists _, _. split; [vm_compute; reflexivity|].
  split; [vm_compute; reflexivity|].
  split; [vm_compute; reflexivity|]. by split.
Qed.

(** C7: called with [limit=N], N positive, [execute_queued_operations]
    passes paging parameters carrying N to the listing and runs over the
    first N matching QUEUED documents at most: no more than N documents are
    written to.  Called without a limit, it passes no paging parameters, runs
    over every matching QUEUED document and takes each of them to a terminal
    state.  The filters are those of [queued_filters], a [dataset_id] keyword
    being the [dataset_id] filter; the keywords repeat none of those passed
    by name to the listing, and the backend answers. *)
Theorem limit_bounds_pass env operator delegation_target dataset_name log kwargs w N :
  (0 < N)%Z → keywords_bind kwargs → no_faults env →
  let f := queued_filters operator delegation_target dataset_name kwargs in
  let queued := filter (fun d => matches env f d = true) (store w) in
  (∃ w' ops tr,
     execute_queued_operations env operator delegation_target dataset_name (Some N) log
                               kwargs w = (inr tt, w') ∧
     trace w' = trace w ++ EvRepo (CallListOperations f (Some (mkPaging N))) :: tr ∧
     ops = take (Z.to_nat N) queued ∧
     tr = flat_map (doc_events env log) ops ∧
     (Z.of_nat (length ops) ≤ N)%Z ∧
     (Z.of_nat (length (remove_dups (updated_ids tr))) ≤ N)%Z) ∧
  (∃ w',
     execute_queued_operations env operator delegation_target dataset_name None log
                               kwargs w = (inr tt, w') ∧
     trace w' = trace w ++ EvRepo (CallListOperations f None) ::
                           flat_map (doc_events env log) queued ∧
     ∀ d, d ∈ store w → matches env f d = true → terminal_at (doc_id d) w').
Proof.
  intros HN Hkw Hnf f queued. split.
  - pose proof (execute_queued_operations_no_faults env Hnf operator delegation_target
                  dataset_name (Some N) log kwargs w Hkw) as Hrun.
    simpl in Hrun. fold f in Hrun. unfold listed, page in Hrun. simpl in Hrun.
    fold queued in Hrun.
    eexists _, (take (Z.to_nat N) queued), _.
    split; [exact Hrun|]. split; [reflexivity|]. split; [done|]. split; [done|].
    assert (Hlen : (length (take (Z.to_nat N) queued) ≤ Z.to_nat N)%nat).
    { rewrite length_take. lia. }
    split; [lia|].
    assert (Hsub : remove_dups (updated_ids (flat_map (doc_events env log)
                                               (take (Z.to_nat N) queued)))
                   ⊆+ doc_id <$> take (Z.to_nat N) queued).
    { apply NoDup_submseteq; [apply NoDup_remove_dups|].
      intros i Hi. rewrite elem_of_remove_dups in Hi.
      exact (updated_ids_flat_map env log _ i Hi). }
    apply submseteq_length in Hsub. rewrite length_fmap in Hsub. lia.
  - pose proof (execute_queued_operations_no_faults env Hnf operator delegation_target
                  dataset_name None log kwargs w Hkw) as Hrun.
    simpl in Hrun. fold f in Hrun. unfold listed, page in Hrun. fold queued in Hrun.
    eexists. split; [exact Hrun|]. split; [reflexivity|].
    intros d Hd Hm.
    eapply (pass_returns_terminal env); [exact Hrun|].
    unfold listed, page. simpl. apply list_elem_of_filter. by split.
Qed.

(** C8, amended: for a document that carries a context, single-operation
    execution first puts the document's id under the key "run_doc" of the
    request parameters, leaving the other keys as they were, and resolves the
    operator with these parameters before any other call; an operator that
    the resolver has bound to these parameters is executed with a context
    that holds the key. *)
Theorem run_doc_injected env doc context w :
  doc_context doc = Some context →
  resolver_binds_params env →
  let params := injected doc context in
  params !! "run_doc" = Some (PyObjectId (doc_id doc)) ∧
  (∀ k, k ≠ "run_doc" → params !! k = request_params context !! k) ∧
  ∃ tr,
    trace (_execute_operator env doc w).2 =
      trace w ++ EvPrepare (doc_operator doc) params :: tr ∧
    (∀ uri ctx, EvExecute uri ctx ∈ tr →
       request_params ctx !! "run_doc" = Some (PyObjectId (doc_id doc))) ∧
    (∀ o x ctx,
       prepare_operator_executor env (doc_operator doc) params =
         inr (PreparedExecutor o x ctx) →
       repo_fault env (CallUpdateRunState (doc_id doc) RUNNING PyNone) = None →
       is_Some (find (has_id (doc_id doc)) (store w)) →
       tr = [EvRepo (CallUpdateRunState (doc_id doc) RUNNING PyNone);
             EvExecute (op_uri o) ctx]).
Proof.
  intros Hc Hbind params.
  assert (Hrun : params !! "run_doc" = Some (PyObjectId (doc_id doc))).
  { unfold params, injected. apply lookup_insert_eq. }
  split; [exact Hrun|]. split.
  { intros k Hk. unfold params, injected. by apply lookup_insert_ne. }
  unfold _execute_operator. rewrite Hc. simpl. fold (injected doc context). fold params.
  unfold bind, call_prepare_operator_executor, set_failed, set_running, operator_execute.
  destruct (prepare_operator_executor env (doc_operator doc) params)
    as [e|[r err|o x ctx]] eqn:Hp.
  - exists []. simpl. split; [done|]. split; [|done].
    intros uri ctx H. by apply elem_of_nil in H.
  - match goal with |- context [repo_update_run_state env ?i ?s ?r ?w0] =>
      destruct (repo_update_run_state env i s r w0) as [res w1] eqn:E end.
    apply repo_update_run_state_inv in E as [E _]. simpl in E.
    exists [EvRepo (CallUpdateRunState (doc_id doc) FAILED (PyExecutionResult r err))].
    split; [destruct res; simpl; by rewrite E, <- app_assoc|].
    split; [|done]. intros uri ctx H. apply list_elem_of_singleton in H. done.
  - match goal with |- context [repo_update_run_state env ?i ?s ?r ?w0] =>
      destruct (repo_update_run_state env i s r w0) as [res w1] eqn:E end.
    pose proof E as E'. apply repo_update_run_state_inv in E' as [Htr _]. simpl in Htr.
    destruct res as [e|d].
    + exists [EvRepo (CallUpdateRunState (doc_id doc) RUNNING PyNone)].
      split; [simpl; by rewrite Htr, <- app_assoc|].
      split; [intros uri c H; apply list_elem_of_singleton in H; done|].
      intros o' x' ctx' _ Hf [d Hd]. exfalso.
      unfold repo_update_run_state, repo_call in E. simpl in E.
      rewrite Hf, Hd in E. done.
    + exists [EvRepo (CallUpdateRunState (doc_id doc) RUNNING PyNone);
              EvExecute (op_uri o) ctx].
      split; [simpl; by rewrite Htr, <- !app_assoc|].
      split.
      * intros uri c H. apply elem_of_cons in H as [H|H]; [done|].
        apply list_elem_of_singleton in H. injection H as _ ->.
        by rewrite (Hbind _ _ _ _ _ Hp).
      * intros o' x' ctx' [= <- _ <-] _ _. done.
Qed.

(** C8, as stated for every document: a document queued without a context
    is a counterexample.  [_execute_operator] raises [AttributeError] at
    [context.request_params], before anything is injected or resolved: the
    world is left as it was, so the trace holds no resolution with a
    "run_doc" key, nor any resolution at all. *)
Lemma run_doc_not_injected_without_context :
  doc_context doc_nocontext = None ∧
  _execute_operator demo_env doc_nocontext edge_world =
    (inl AttributeError_request_params, edge_world) ∧
  ¬ ∃ params tr,
      trace (_execute_operator demo_env doc_nocontext edge_world).2 =
        trace edge_world ++ EvPrepare (doc_operator doc_nocontext) params :: tr.
Proof.
  split; [reflexivity|]. split; [reflexivity|].
  intros (params & tr & H). discriminate H.
Qed.

(** C9: a pass with [log=True] and a pass with [log=False] from the same
    world end with the same outcome (both return, or both raise the same
    exception) and the same store, and the calls of the silent pass are the
    calls of the logging pass with the log lines taken out: the same
    repository calls, resolutions and executions in the same order. *)
Theorem log_flag_is_observational env operator delegation_target dataset_name limit
    kwargs w :
  let run log :=
    execute_queued_operations env operator delegation_target dataset_name limit log
                              kwargs w in
  (run true).1 = (run false).1 ∧
  store (run true).2 = store (run false).2 ∧
  ∃ tr, trace (run true).2 = trace w ++ tr ∧
        trace (run false).2 = trace w ++ erase_log tr.
Proof.
  intros run.
  destruct (sim_execute_queued_operations env (trace w) operator delegation_target
              dataset_name limit kwargs w w) as (Hr & Hst & Htr).
  - split; [done|]. exists []. change (erase_log []) with (@nil Event).
    by rewrite app_nil_r.
  - done.
Qed.

(** One iteration in which the backend rejects the COMPLETED write: the
    handler writes FAILED with the error trace of the rejection, and the
    iteration returns. *)
Lemma execute_one_completed_rejected env log op st tr context o x ctx v e :
  is_Some (find (has_id (doc_id op)) st) →
  doc_context op = Some context →
  prepare_operator_executor env (doc_operator op) (injected op context) =
    inr (PreparedExecutor o x ctx) →
  op_execute o ctx = inr v →
  repo_fault env (CallUpdateRunState (doc_id op) RUNNING PyNone) = None →
  repo_fault env (CallUpdateRunState (doc_id op) COMPLETED v) = Some e →
  repo_fault env (CallUpdateRunState (doc_id op) FAILED
                    (ExecutionResult_error (format_exc e))) = None →
  execute_one env log op (mkWorld st tr) =
  (inr tt,
   mkWorld (store_update (doc_id op) FAILED (ExecutionResult_error (format_exc e))
              (store_update (doc_id op) RUNNING PyNone st))
           (tr ++ (log_line log (LogRunning (doc_id op) (doc_operator op)) ++
                   [EvPrepare (doc_operator op) (injected op context);
                    EvRepo (CallUpdateRunState (doc_id op) RUNNING PyNone)]) ++
                  [EvExecute (op_uri o) ctx;
                   EvRepo (CallUpdateRunState (doc_id op) COMPLETED v);
                   failed_with op e] ++
                  log_line log (LogFailed (doc_id op)))).
Proof.
  intros Hst Hc Hp He Hrun Hcomp Hfail.
  unfold injected, failed_with in *.
  cbv [execute_one try_except bind asyncio_run _execute_operator set_completed
       set_failed set_running call_prepare_operator_executor operator_execute
       when logger_info emit ret raise store trace].
  rewrite Hc. simpl. rewrite Hp.
  destruct log; simpl.
  all: match goal with
       | |- context [repo_update_run_state ?E ?i RUNNING ?r (mkWorld ?st0 ?tr0)] =>
           destruct (repo_update_run_state_ok E i RUNNING r st0 tr0 Hrun Hst) as [d ->]
       end; simpl; rewrite He.
  all: match goal with
       | |- context [repo_update_run_state ?E ?i COMPLETED ?r (mkWorld ?st0 ?tr0)] =>
           rewrite (repo_update_run_state_fault E i COMPLETED r st0 tr0 e Hcomp)
       end.
  all: match goal with
       | |- context [repo_update_run_state ?E ?i FAILED ?r (mkWorld ?st0 ?tr0)] =>
           destruct (repo_update_run_state_ok E i FAILED r st0 tr0 Hfail
                       (store_update_is_Some _ _ _ _ _ Hst)) as [d' ->]
       end; simpl.
  all: by rewrite <- ?app_assoc, ?app_nil_r.
Qed.

Lemma stored_same_ids i st st' :
  doc_id <$> st' = doc_id <$> st →
  is_Some (find (has_id i) st) → is_Some (find (has_id i) st').
Proof.
  intros Hids [d Hd]. apply find_has_id_is_Some. rewrite Hids.
  by eapply find_has_id_elem.
Qed.

(** C10: when the operator of a listed document has executed successfully
    and the backend rejects the COMPLETED write that follows, the pass does
    not raise: the handler of that iteration writes FAILED with the error
    trace of the rejection right after the rejected write, the remaining
    documents are run, and the document is stored FAILED with that error
    trace as its result.  The pass is one that lists: its keywords repeat
    none of those passed by name to the listing. *)
Theorem set_completed_failure_recorded env operator delegation_target dataset_name
    limit log kwargs w op context o x ctx v e :
  keywords_bind kwargs →
  store_wf (store w) →
  op ∈ listed env (queued_filters operator delegation_target dataset_name kwargs)
              (mkPaging <$> limit) (store w) →
  doc_context op = Some context →
  prepare_operator_executor env (doc_operator op) (injected op context) =
    inr (PreparedExecutor o x ctx) →
  op_execute o ctx = inr v →
  repo_fault env (CallUpdateRunState (doc_id op) COMPLETED v) = Some e →
  repo_fault env (CallUpdateRunState (doc_id op) RUNNING PyNone) = None →
  repo_fault env (CallUpdateRunState (doc_id op) FAILED
                    (ExecutionResult_error (format_exc e))) = None →
  repo_fault env (CallListOperations
                    (queued_filters operator delegation_target dataset_name kwargs)
                    (mkPaging <$> limit)) = None →
  (∀ op', op' ∈ listed env (queued_filters operator delegation_target dataset_name kwargs)
                       (mkPaging <$> limit) (store w) →
          doc_id op' ≠ doc_id op → answers_for env (doc_id op')) →
  ∃ w' t1 t2 d,
    execute_queued_operations env operator delegation_target dataset_name limit log
                              kwargs w = (inr tt, w') ∧
    trace w' = t1 ++ [EvExecute (op_uri o) ctx;
                      EvRepo (CallUpdateRunState (doc_id op) COMPLETED v);
                      EvRepo (CallUpdateRunState (doc_id op) FAILED
                                (ExecutionResult_error (format_exc e)))] ++ t2 ∧
    find (has_id (doc_id op)) (store w') = Some d ∧
    doc_run_state d = FAILED ∧
    doc_result d = ExecutionResult_error (format_exc e).
Proof.
  intros Hkw Hwf Hop Hc Hp He Hcomp Hrun Hfail Hlist Hothers.
  set (f := queued_filters operator delegation_target dataset_name kwargs) in *.
  set (paging := mkPaging <$> limit) in *.
  pose proof (listed_NoDup env f paging _ Hwf) as Hnd.
  pose proof (listed_stored env f paging (store w)) as Hstored.
  assert (Hin : op ∈ store w).
  { by eapply (sublist_subseteq _ _ (listed_sublist env f paging (store w))). }
  destruct (list_elem_of_split _ _ Hop) as (l1 & l2 & Hsplit).
  rewrite Hsplit in Hnd, Hstored, Hothers.
  rewrite fmap_app, fmap_cons in Hnd.
  apply NoDup_app in Hnd as (_ & Hdisj & Hnd2). apply NoDup_cons in Hnd2 as [Hnot2 _].
  assert (Hnot1 : doc_id op ∉ doc_id <$> l1).
  { intros Hi. apply (Hdisj _ Hi). by left. }
  apply Forall_app in Hstored as [Hst1 Hst2]. apply Forall_cons in Hst2 as [Hstop Hst2].
  assert (Hans1 : Forall (fun op' => answers_for env (doc_id op')) l1).
  { apply Forall_forall. intros op' Hop'. apply Hothers.
    - apply elem_of_app. by left.
    - intros Heq. apply Hnot1. rewrite <- Heq. by apply list_elem_of_fmap_2. }
  assert (Hans2 : Forall (fun op' => answers_for env (doc_id op')) l2).
  { apply Forall_forall. intros op' Hop'. apply Hothers.
    - apply elem_of_app. right. by right.
    - intros Heq. apply Hnot2. rewrite <- Heq. by apply list_elem_of_fmap_2. }
  rewrite execute_queued_operations_bound by done.
  unfold repo_list_operations, repo_call, bind. fold f paging.
  rewrite Hlist. simpl.
  fold (listed env f paging (store w)). rewrite Hsplit, for_each_app.
  unfold bind. rewrite for_each_answered by done. simpl. unfold bind.
  rewrite (execute_one_completed_rejected env log op _ _ context o x ctx v e
             (stored_same_ids _ _ _ (replay_ids _ _) Hstop) Hc Hp He Hrun Hcomp Hfail).
  rewrite for_each_answered; simpl; [|done|].
  - eexists _,
      (trace w ++ EvRepo (CallListOperations f paging) ::
       flat_map (doc_events env log) l1 ++
       log_line log (LogRunning (doc_id op) (doc_operator op)) ++
       [EvPrepare (doc_operator op) (injected op context);
        EvRepo (CallUpdateRunState (doc_id op) RUNNING PyNone)]),
      (log_line log (LogFailed (doc_id op)) ++ flat_map (doc_events env log) l2), _.
    split; [reflexivity|]. simpl. split.
    + unfold failed_with. rewrite <- !app_assoc. simpl. rewrite <- !app_assoc. reflexivity.
    + rewrite find_replay, (writes_flat_map_other env log l2) by done. simpl.
      rewrite !find_store_update, find_replay,
        (writes_flat_map_other env log l1) by done. simpl.
      rewrite (find_has_id_wf _ _ Hwf Hin). simpl.
      rewrite !bool_decide_eq_true_2 by done. by eexists.
  - eapply Forall_impl; [exact Hst2|]. intros op' Hop'. simpl in *.
    eapply stored_same_ids; [|exact Hop'].
    by rewrite !store_update_ids, replay_ids.
Qed.

(** ** The claims on the small deployment *)

Lemma demo_no_faults : no_faults demo_env.
Proof. intros call. reflexivity. Qed.

Lemma demo_store_wf : store_wf (store demo_world).
Proof. apply (bool_decide_unpack _). vm_compute. exact I. Qed.

Lemma demo_listed env :
  repo_matches_dataset env = (fun _ _ _ _ => true) →
  listed env (queued_filters None None None []) None (store demo_world) =
  [doc_echo; doc_missing; doc_boom].
Proof.
  intros H. unfold listed, page, matches. rewrite H. reflexivity.
Qed.

Lemma demo_env_binds_params : resolver_binds_params demo_env.
Proof.
  intros uri params o x ctx. simpl. unfold demo_prepare.
  repeat case_bool_decide; intros [= <- <- <-]; reflexivity.
Qed.

Lemma doc_echo_listed env :
  repo_matches_dataset env = (fun _ _ _ _ => true) →
  doc_echo ∈ listed env (queued_filters None None None []) (mkPaging <$> None)
                    (store demo_world).
Proof.
  intros H. change (mkPaging <$> None) with (@None DelegatedOpPagingParams).
  rewrite (demo_listed env H). by left.
Qed.

Lemma doc_boom_listed :
  doc_boom ∈ listed demo_env (queued_filters None None None []) (mkPaging <$> None)
                    (store demo_world).
Proof.
  change (mkPaging <$> None) with (@None DelegatedOpPagingParams).
  rewrite (demo_listed demo_env eq_refl). right. right. by left.
Qed.

Lemma rerun_operation_queues_copy_witness :
  no_faults demo_env ∧
  find (has_id 2) (store demo_world) = Some doc_missing ∧
  ∃ new w',
    rerun_operation demo_env 2 demo_world = (inr new, w') ∧
    doc_operator new = doc_operator doc_missing ∧
    doc_context new = doc_context doc_missing ∧
    doc_delegation_target new = doc_delegation_target doc_missing ∧
    doc_id new ≠ doc_id doc_missing ∧
    doc_run_state new = QUEUED ∧
    store w' = store demo_world ++ [new] ∧
    find (has_id 2) (store w') = Some doc_missing.
Proof.
  split; [exact demo_no_faults|]. split; [reflexivity|].
  apply (rerun_operation_queues_copy demo_env 2 doc_missing demo_world);
    [exact demo_no_faults|reflexivity].
Defined.

Lemma execute_queued_operations_sequential_witness :
  let kwargs := [("dataset_id", PyObjectId 7); ("tag", PyStr "nightly")] in
  keywords_bind kwargs ∧ no_faults demo_env ∧
  ∃ w',
    execute_queued_operations demo_env None None None None true kwargs demo_world
      = (inr tt, w') ∧
    trace w' =
      trace demo_world ++
      EvRepo (CallListOperations (queued_filters None None None kwargs) None) ::
      flat_map (doc_events demo_env true)
               (listed demo_env (queued_filters None None None kwargs) None
                       (store demo_world)) ∧
    ∀ op, op ∈ listed demo_env (queued_filters None None None kwargs) None
                      (store demo_world) →
          terminal_at (doc_id op) w'.
Proof.
  intros kwargs. split; [reflexivity|]. split; [exact demo_no_faults|].
  apply (execute_queued_operations_sequential demo_env None None None None true kwargs
           demo_world eq_refl demo_no_faults).
Defined.

Lemma execution_exception_recorded_witness :
  keywords_bind [] ∧ no_faults demo_env ∧ store_wf (store demo_world) ∧
  doc_context doc_boom = Some ctx_hi ∧
  op_execute boom_operator (mkContext (injected doc_boom ctx_hi)) =
    inl (mkExn "RuntimeError" "Traceback: RuntimeError: boom") ∧
  ∃ w' t1 t2 d,
    execute_queued_operations demo_env None None None None false [] demo_world
      = (inr tt, w') ∧
    trace w' = t1 ++ [EvExecute "boom" (mkContext (injected doc_boom ctx_hi));
                      EvRepo (CallUpdateRunState 3 FAILED
                                (ExecutionResult_error "Traceback: RuntimeError: boom"))]
                  ++ t2 ∧
    find (has_id 3) (store w') = Some d ∧
    doc_run_state d = FAILED ∧
    doc_result d = ExecutionResult_error "Traceback: RuntimeError: boom".
Proof.
  split; [reflexivity|]. split; [exact demo_no_faults|]. split; [exact demo_store_wf|].
  split; [reflexivity|]. split; [reflexivity|].
  apply (execution_exception_recorded demo_env None None None None false [] demo_world
           doc_boom ctx_hi boom_operator PyNone (mkContext (injected doc_boom ctx_hi))
           (mkExn "RuntimeError" "Traceback: RuntimeError: boom")
           keywords_bind_nil demo_no_faults demo_store_wf doc_boom_listed
           eq_refl eq_refl eq_refl).
Defined.

Lemma complete_pass_leaves_terminal_witness :
  let run :=
    execute_queued_operations demo_env None None None None false [] demo_world in
  run = (inr tt, run.2) ∧ terminal_at 3 run.2.
Proof.
  split; [vm_compute; reflexivity|].
  apply (complete_pass_leaves_terminal demo_env None None None None false [] demo_world
           _ doc_boom); [vm_compute; reflexivity|exact doc_boom_listed].
Defined.

Lemma successful_execution_completes_witness :
  keywords_bind [] ∧ no_faults demo_env ∧ store_wf (store demo_world) ∧
  doc_context doc_echo = Some ctx_hi ∧
  op_execute echo_operator (mkContext (injected doc_echo ctx_hi)) = inr (PyStr "hi") ∧
  ∃ w' tr t1 t2 d,
    execute_queued_operations demo_env None None None None false [] demo_world
      = (inr tt, w') ∧
    doc_run_state doc_echo = QUEUED ∧
    trace w' = trace demo_world ++ tr ∧
    tr = t1 ++ [EvPrepare "echo" (injected doc_echo ctx_hi);
                EvRepo (CallUpdateRunState 1 RUNNING PyNone);
                EvExecute "echo" (mkContext (injected doc_echo ctx_hi));
                EvRepo (CallUpdateRunState 1 COMPLETED (PyStr "hi"))] ++ t2 ∧
    transitions 1 tr = [RUNNING; COMPLETED] ∧
    find (has_id 1) (store w') = Some d ∧
    doc_run_state d = COMPLETED ∧
    doc_result d = PyStr "hi".
Proof.
  split; [reflexivity|]. split; [exact demo_no_faults|]. split; [exact demo_store_wf|].
  split; [reflexivity|]. split; [vm_compute; reflexivity|].
  apply (successful_execution_completes demo_env None None None None false []
           demo_world doc_echo ctx_hi echo_operator PyNone
           (mkContext (injected doc_echo ctx_hi)) (PyStr "hi")
           keywords_bind_nil demo_no_faults demo_store_wf
           (doc_echo_listed demo_env eq_refl) eq_refl).
  - vm_compute. reflexivity.
  - vm_compute. reflexivity.
Defined.

Lemma limit_bounds_pass_witness :
  (0 < 2)%Z ∧ keywords_bind [] ∧ no_faults demo_env ∧
  (∃ w' ops tr,
     execute_queued_operations demo_env None None None (Some 2%Z) false [] demo_world
       = (inr tt, w') ∧
     trace w' = trace demo_world ++
                EvRepo (CallListOperations (queued_filters None None None [])
                                           (Some (mkPaging 2))) :: tr ∧
     ops = take (Z.to_nat 2)
                (filter (fun d => matches demo_env (queued_filters None None None []) d
                                  = true) (store demo_world)) ∧
     tr = flat_map (doc_events demo_env false) ops ∧
     (Z.of_nat (length ops) ≤ 2)%Z ∧
     (Z.of_nat (length (remove_dups (updated_ids tr))) ≤ 2)%Z) ∧
  (∃ w',
     execute_queued_operations demo_env None None None None false [] demo_world
       = (inr tt, w') ∧
     trace w' = trace demo_world ++
                EvRepo (CallListOperations (queued_filters None None None []) None) ::
                flat_map (doc_events demo_env false)
                  (filter (fun d => matches demo_env (queued_filters None None None []) d
                                    = true) (store demo_world)) ∧
     ∀ d, d ∈ store demo_world →
          matches demo_env (queued_filters None None None []) d = true →
          terminal_at (doc_id d) w').
Proof.
  split; [lia|]. split; [reflexivity|]. split; [exact demo_no_faults|].
  apply (limit_bounds_pass demo_env None None None false [] demo_world 2);
    [lia|reflexivity|exact demo_no_faults].
Defined.

Lemma run_doc_injected_witness :
  doc_context doc_echo = Some ctx_hi ∧
  resolver_binds_params demo_env ∧
  injected doc_echo ctx_hi !! "run_doc" = Some (PyObjectId 1) ∧
  (∀ k, k ≠ "run_doc" → injected doc_echo ctx_hi !! k = request_params ctx_hi !! k) ∧
  ∃ tr,
    trace (_execute_operator demo_env doc_echo demo_world).2 =
      trace demo_world ++ EvPrepare "echo" (injected doc_echo ctx_hi) :: tr ∧
    (∀ uri ctx, EvExecute uri ctx ∈ tr →
       request_params ctx !! "run_doc" = Some (PyObjectId 1)) ∧
    (∀ o x ctx,
       prepare_operator_executor demo_env "echo" (injected doc_echo ctx_hi) =
         inr (PreparedExecutor o x ctx) →
       repo_fault demo_env (CallUpdateRunState 1 RUNNING PyNone) = None →
       is_Some (find (has_id 1) (store demo_world)) →
       tr = [EvRepo (CallUpdateRunState 1 RUNNING PyNone); EvExecute (op_uri o) ctx]).
Proof.
  split; [reflexivity|]. split; [exact demo_env_binds_params|].
  apply (run_doc_injected demo_env doc_echo ctx_hi demo_world eq_refl
           demo_env_binds_params).
Defined.

Lemma flaky_answers_others op' :
  op' ∈ listed flaky_env (queued_filters None None None []) (mkPaging <$> None)
               (store demo_world) →
  doc_id op' ≠ doc_id doc_echo → answers_for flaky_env (doc_id op').
Proof.
  change (mkPaging <$> None) with (@None DelegatedOpPagingParams).
  rewrite (demo_listed flaky_env eq_refl). intros Hop Hne s r.
  repeat (apply elem_of_cons in Hop as [->|Hop]); try done.
  by apply elem_of_nil in Hop.
Qed.

Lemma set_completed_failure_recorded_witness :
  keywords_bind [] ∧ store_wf (store demo_world) ∧
  doc_context doc_echo = Some ctx_hi ∧
  op_execute echo_operator (mkContext (injected doc_echo ctx_hi)) = inr (PyStr "hi") ∧
  repo_fault flaky_env (CallUpdateRunState 1 COMPLETED (PyStr "hi")) = Some write_timeout ∧
  repo_fault flaky_env (CallUpdateRunState 1 RUNNING PyNone) = None ∧
  repo_fault flaky_env (CallUpdateRunState 1 FAILED
                          (ExecutionResult_error (format_exc write_timeout))) = None ∧
  ∃ w' t1 t2 d,
    execute_queued_operations flaky_env None None None None false [] demo_world
      = (inr tt, w') ∧
    trace w' = t1 ++ [EvExecute "echo" (mkContext (injected doc_echo ctx_hi));
                      EvRepo (CallUpdateRunState 1 COMPLETED (PyStr "hi"));
                      EvRepo (CallUpdateRunState 1 FAILED
                                (ExecutionResult_error (format_exc write_timeout)))]
                  ++ t2 ∧
    find (has_id 1) (store w') = Some d ∧
    doc_run_state d = FAILED ∧
    doc_result d = ExecutionResult_error (format_exc write_timeout).
Proof.
  split; [reflexivity|]. split; [exact demo_store_wf|]. split; [reflexivity|].
  split; [vm_compute; reflexivity|]. split; [reflexivity|].
  split; [reflexivity|]. split; [reflexivity|].
  apply (set_completed_failure_recorded flaky_env None None None None false []
           demo_world doc_echo ctx_hi echo_operator PyNone
           (mkContext (injected doc_echo ctx_hi)) (PyStr "hi") write_timeout
           keywords_bind_nil demo_store_wf (doc_echo_listed flaky_env eq_refl) eq_refl).
  - vm_compute. reflexivity.
  - vm_compute. reflexivity.
  - reflexivity.
  - reflexivity.
  - reflexivity.
  - reflexivity.
  - exact flaky_answers_others.
Defined.

(** ** Further properties: what a computation appends to the trace *)

Lemma bind_inl {A B} (m : Py A) (k : A → Py B) w e w' :
  bind m k w = (inl e, w') →
  m w = (inl e, w') ∨ ∃ a w1, m w = (inr a, w1) ∧ k a w1 = (inl e, w').
Proof.
  unfold bind. destruct (m w) as [[e0|a] w1]; intros H.
  - left. by injection H as -> ->.
  - right. by exists a, w1.
Qed.

Lemma for_each_inl {A} (xs : list A) body w e w' :
  for_each xs body w = (inl e, w') →
  ∃ l1 x l2 w1,
    xs = l1 ++ x :: l2 ∧ for_each l1 body w = (inr tt, w1) ∧ body x w1 = (inl e, w').
Proof.
  revert w. induction xs as [|x xs IH]; intros w; simpl; [done|].
  intros H. apply bind_inl in H as [H|([] & w1 & Hx & H)].
  - by exists [], x, xs, w.
  - destruct (IH _ H) as (l1 & y & l2 & w2 & -> & Hl1 & Hy).
    exists (x :: l1), y, l2, w2. split; [done|]. split; [|done].
    simpl. unfold bind. by rewrite Hx.
Qed.

Lemma repo_update_run_state_inl env i s r w e w' :
  repo_update_run_state env i s r w = (inl e, w') →
  w' = mkWorld (store w) (trace w ++ [EvRepo (CallUpdateRunState i s r)]) ∧
  (repo_fault env (CallUpdateRunState i s r) = Some e ∨
   find (has_id i) (store w) = None).
Proof.
  unfold repo_update_run_state, repo_call.
  destruct (repo_fault env _) as [e0|]; [intros [= <- <-]; by split; [|left]|].
  destruct (find (has_id i) (store w)) as [d|]; [done|].
  intros [= <- <-]. by split; [|right].
Qed.

Lemma repo_update_run_state_inr env i s r w d w' :
  repo_update_run_state env i s r w = (inr d, w') →
  repo_fault env (CallUpdateRunState i s r) = None.
Proof.
  unfold repo_update_run_state, repo_call. by destruct (repo_fault env _).
Qed.

Section Emits.

Context {A B : Type}.
Implicit Types (Q : list Event → Prop).

Lemma emits_weaken Q Q' (m : Py A) :
  (∀ seg, Q seg → Q' seg) → emits Q m → emits Q' m.
Proof.
  intros HQ Hm w r w' H. destruct (Hm w r w' H) as (seg & Htr & Hseg). eauto.
Qed.

Lemma emits_ret Q (a : A) : Q [] → emits Q (ret a).
Proof. intros HQ w r w' [= _ <-]. exists []. by rewrite app_nil_r. Qed.

Lemma emits_raise Q e : Q [] → emits Q (@raise A e).
Proof. intros HQ w r w' [= _ <-]. exists []. by rewrite app_nil_r. Qed.

(** Sequencing: the segment of the first computation alone when it raises,
    followed by the segment of the second when it returns. *)
Lemma emits_bind Q1 Q2 Q (m : Py A) (k : A → Py B) :
  (∀ s1, Q1 s1 → Q s1) → (∀ s1 s2, Q1 s1 → Q2 s2 → Q (s1 ++ s2)) →
  emits Q1 m → (∀ a, emits Q2 (k a)) → emits Q (bind m k).
Proof.
  intros H1 H12 Hm Hk w r w'. unfold bind.
  destruct (m w) as [[e|a] w1] eqn:E; destruct (Hm _ _ _ E) as (s1 & Htr1 & Hs1).
  - intros [= <- <-]. eauto.
  - intros H. destruct (Hk a _ _ _ H) as (s2 & Htr2 & Hs2).
    exists (s1 ++ s2). rewrite Htr2, Htr1, app_assoc. eauto.
Qed.

Lemma emits_try_except Q1 Q2 Q (body : Py A) handler :
  (∀ s1, Q1 s1 → Q s1) → (∀ s1 s2, Q1 s1 → Q2 s2 → Q (s1 ++ s2)) →
  emits Q1 body → (∀ e, emits Q2 (handler e)) → emits Q (try_except body handler).
Proof.
  intros H1 H12 Hm Hk w r w'. unfold try_except.
  destruct (body w) as [[e|a] w1] eqn:E; destruct (Hm _ _ _ E) as (s1 & Htr1 & Hs1).
  - intros H. destruct (Hk e _ _ _ H) as (s2 & Htr2 & Hs2).
    exists (s1 ++ s2). rewrite Htr2, Htr1, app_assoc. eauto.
  - intros [= <- <-]. eauto.
Qed.

End Emits.

Section EmitsMonoidal.

Context (Q : list Event → Prop) `{!Monoidal Q}.

Lemma emits_bind_monoidal {A B} (m : Py A) (k : A → Py B) :
  emits Q m → (∀ a, emits Q (k a)) → emits Q (bind m k).
Proof. apply emits_bind; [done|apply monoidal_app]. Qed.

Lemma emits_try_except_monoidal {A} (body : Py A) handler :
  emits Q body → (∀ e, emits Q (handler e)) → emits Q (try_except body handler).
Proof. apply emits_try_except; [done|apply monoidal_app]. Qed.

Lemma emits_for_each {A} (xs : list A) body :
  (∀ x, x ∈ xs → emits Q (body x)) → emits Q (for_each xs body).
Proof.
  induction xs as [|x xs IH]; intros H; simpl.
  - apply emits_ret, monoidal_nil.
  - apply emits_bind_monoidal.
    + apply H. by left.
    + intros _. apply IH. intros y Hy. apply H. by right.
Qed.

Lemma emits_repo_call env {A} call body :
  Q [EvRepo call] → emits Q (@repo_call env A call body).
Proof.
  intros HQ w r w'. unfold repo_call.
  destruct (repo_fault env call); [intros [= <- <-]; eauto|].
  destruct (body (store w)) as [e|[a st']]; intros [= <- <-]; eauto.
Qed.

Lemma emits_prepare env uri params :
  Q [EvPrepare uri params] → emits Q (call_prepare_operator_executor env uri params).
Proof. intros HQ w r w' [= <- <-]. eauto. Qed.

Lemma emits_operator_execute o ctx :
  Q [EvExecute (op_uri o) ctx] → emits Q (operator_execute o ctx).
Proof. intros HQ w r w' [= <- <-]. eauto. Qed.

Lemma emits_log log line : Q [EvLog line] → emits Q (when log (logger_info line)).
Proof.
  intros HQ. destruct log; simpl.
  - intros w r w' [= <- <-]. eauto.
  - apply emits_ret, monoidal_nil.
Qed.

End EmitsMonoidal.

(** *** The calls of a pass *)

#[local] Instance pass_call_monoidal ids : Monoidal (Forall (pass_call ids)).
Proof.
  split; [by constructor|]. intros s1 s2 H1 H2. by apply Forall_app.
Qed.

Lemma pass_call_mono ids ids' ev :
  (∀ i, i ∈ ids → i ∈ ids') → pass_call ids ev → pass_call ids' ev.
Proof.
  intros Hsub. destruct ev as [[| i s r | |]| | |]; simpl; try done.
  intros [Hi Hs]. split; [by apply Hsub|done].
Qed.

Lemma emits_pass_call_update env ids i s r :
  i ∈ ids → s ≠ QUEUED →
  emits (Forall (pass_call ids)) (repo_update_run_state env i s r).
Proof.
  intros Hi Hs. unfold repo_update_run_state.
  apply (emits_repo_call (Forall (pass_call ids))). by repeat constructor.
Qed.

Lemma emits_pass_call_execute_operator env op :
  emits (Forall (pass_call [doc_id op])) (_execute_operator env op).
Proof.
  set (Q := Forall (pass_call [doc_id op])).
  assert (Hid : doc_id op ∈ [doc_id op]) by (by left).
  unfold _execute_operator, set_failed, set_running.
  destruct (doc_context op) as [c|]; [|apply emits_raise, monoidal_nil].
  apply (emits_bind_monoidal Q).
  - apply (emits_prepare Q). by repeat constructor.
  - intros [r err|o x ctx].
    + apply (emits_bind_monoidal Q); [by apply emits_pass_call_update|].
      intros _. apply emits_ret, monoidal_nil.
    + apply (emits_bind_monoidal Q); [by apply emits_pass_call_update|].
      intros _. apply (emits_operator_execute Q). by repeat constructor.
Qed.

Lemma emits_pass_call_execute_one env log op :
  emits (Forall (pass_call [doc_id op])) (execute_one env log op).
Proof.
  set (Q := Forall (pass_call [doc_id op])).
  assert (Hid : doc_id op ∈ [doc_id op]) by (by left).
  assert (Hlog : ∀ line, emits Q (when log (logger_info line))).
  { intros line. apply (emits_log Q). by repeat constructor. }
  unfold execute_one, asyncio_run, set_completed, set_failed.
  apply (emits_try_except_monoidal Q).
  - apply (emits_bind_monoidal Q); [apply Hlog|]. intros _.
    apply (emits_bind_monoidal Q); [apply emits_pass_call_execute_operator|].
    intros result.
    apply (emits_bind_monoidal Q); [by apply emits_pass_call_update|].
    intros _. apply Hlog.
  - intros e. apply (emits_bind_monoidal Q); [by apply emits_pass_call_update|].
    intros _. apply Hlog.
Qed.

(** *** Executions and the RUNNING write *)

Lemma guarded_weaken env prev tr : guarded env None tr → guarded env prev tr.
Proof.
  destruct tr as [|ev tr]; simpl; [done|]. intros [Hev Htr]. split; [|done].
  destruct ev; try done. by destruct Hev as (i & Hi & _).
Qed.

Lemma guarded_app env prev s1 s2 :
  guarded env prev s1 → guarded env None s2 → guarded env prev (s1 ++ s2).
Proof.
  revert prev. induction s1 as [|ev s1 IH]; intros prev; simpl.
  - intros _. apply guarded_weaken.
  - intros [Hev H1] H2. split; [done|]. by apply IH.
Qed.

#[local] Instance guarded_monoidal env : Monoidal (guarded env None).
Proof. split; [done|]. intros s1 s2. apply guarded_app. Qed.

(** In a guarded trace, the call before an execution is an answered
    RUNNING write. *)
Lemma guarded_execute env prev t1 uri ctx t2 :
  guarded env prev (t1 ++ EvExecute uri ctx :: t2) →
  answered_running env (match last t1 with Some ev => Some ev | None => prev end).
Proof.
  revert prev. induction t1 as [|ev t1 IH]; intros prev; simpl.
  - by intros [H _].
  - intros [_ H]. apply IH in H. rewrite last_cons.
    by destruct (last t1).
Qed.

Lemma emits_guarded_running_execute env i o ctx :
  emits (guarded env None)
        (bind (set_running env i) (fun _ => operator_execute o ctx)).
Proof.
  intros w r w'. unfold bind, set_running.
  destruct (repo_update_run_state env i RUNNING PyNone w) as [[e|d] w1] eqn:E.
  - intros [= <- <-]. apply repo_update_run_state_inv in E as [Htr _].
    eexists. split; [exact Htr|]. simpl. done.
  - intros [= <- <-]. pose proof (repo_update_run_state_inr _ _ _ _ _ _ _ E) as Hf.
    apply repo_update_run_state_inv in E as [Htr _].
    exists [EvRepo (CallUpdateRunState i RUNNING PyNone); EvExecute (op_uri o) ctx].
    simpl. rewrite Htr, <- app_assoc. split; [done|].
    split; [done|]. split; [|done]. by exists i.
Qed.

Lemma emits_guarded_execute_operator env op :
  emits (guarded env None) (_execute_operator env op).
Proof.
  set (Q := guarded env None).
  unfold _execute_operator, set_failed.
  destruct (doc_context op) as [c|]; [|apply emits_raise, monoidal_nil].
  apply (emits_bind_monoidal Q).
  - apply (emits_prepare Q). by simpl.
  - intros [r err|o x ctx].
    + apply (emits_bind_monoidal Q).
      * unfold repo_update_run_state. apply (emits_repo_call Q). by simpl.
      * intros _. apply emits_ret, monoidal_nil.
    + apply emits_guarded_running_execute.
Qed.

Lemma emits_guarded_execute_one env log op :
  emits (guarded env None) (execute_one env log op).
Proof.
  set (Q := guarded env None).
  assert (Hlog : ∀ line, emits Q (when log (logger_info line))).
  { intros line. apply (emits_log Q). by simpl. }
  assert (Hupd : ∀ s r, emits Q (repo_update_run_state env (doc_id op) s r)).
  { intros s r. unfold repo_update_run_state. apply (emits_repo_call Q). by simpl. }
  unfold execute_one, asyncio_run, set_completed, set_failed.
  apply (emits_try_except_monoidal Q).
  - apply (emits_bind_monoidal Q); [apply Hlog|]. intros _.
    apply (emits_bind_monoidal Q); [apply emits_guarded_execute_operator|].
    intros result. apply (emits_bind_monoidal Q); [apply Hupd|]. intros _. apply Hlog.
  - intros e. apply (emits_bind_monoidal Q); [apply Hupd|]. intros _. apply Hlog.
Qed.

(** What a pass appends to the trace: nothing when a keyword clashes;
    otherwise the listing call, alone when the listing raises, and followed by
    what the loop over the listed documents appends when it returns. *)
Lemma pass_segment (Q : list Event → Prop) env operator delegation_target
    dataset_name limit log kwargs w r w' :
  let f := queued_filters operator delegation_target dataset_name kwargs in
  let paging := mkPaging <$> limit in
  Q [] →
  emits Q (for_each (listed env f paging (store w)) (execute_one env log)) →
  execute_queued_operations env operator delegation_target dataset_name limit log
                            kwargs w = (r, w') →
  match keyword_clash passed_by_name kwargs with
  | Some name => r = inl (TypeError_multiple_values name) ∧ w' = w
  | None =>
      ∃ seg, trace w' = trace w ++ EvRepo (CallListOperations f paging) :: seg ∧ Q seg
  end.
Proof.
  intros f paging Hnil Hloop.
  destruct (keyword_clash passed_by_name kwargs) as [name|] eqn:Hk.
  - rewrite (execute_queued_operations_clash _ _ _ _ _ _ _ name w Hk).
    by intros [= <- <-].
  - rewrite execute_queued_operations_bound by done.
    unfold bind, repo_list_operations, repo_call. fold f paging.
    destruct (repo_fault env (CallListOperations f paging)).
    + intros [= <- <-]. simpl. eauto.
    + simpl. intros H. destruct (Hloop _ _ _ H) as (seg & Htr & Hseg).
      simpl in Htr. exists seg. rewrite Htr, <- app_assoc. by split.
Qed.

(** The same, whichever way the pass went: the calls of a pass are a
    segment with the property of the loop's segments, after at most the
    listing call. *)
Lemma pass_segment_any (Q : list Event → Prop) env operator delegation_target
    dataset_name limit log kwargs w r w' :
  let f := queued_filters operator delegation_target dataset_name kwargs in
  let paging := mkPaging <$> limit in
  Q [] →
  emits Q (for_each (listed env f paging (store w)) (execute_one env log)) →
  execute_queued_operations env operator delegation_target dataset_name limit log
                            kwargs w = (r, w') →
  ∃ head seg,
    trace w' = trace w ++ head ++ seg ∧
    (head = [] ∨ head = [EvRepo (CallListOperations f paging)]) ∧ Q seg.
Proof.
  intros f paging Hnil Hloop H.
  pose proof (pass_segment Q env operator delegation_target dataset_name limit log
                kwargs w r w' Hnil Hloop H) as Hseg.
  destruct (keyword_clash passed_by_name kwargs) as [name|].
  - destruct Hseg as [_ ->]. exists [], []. rewrite app_nil_r. split; [done|].
    split; [by left|done].
  - destruct Hseg as (seg & Htr & Hseg).
    exists [EvRepo (CallListOperations f paging)], seg. split; [done|].
    split; [by right|done].
Qed.

(** *** At most one resolution and one execution per document *)

Lemma count_events_app p s1 s2 :
  count_events p (s1 ++ s2) = count_events p s1 + count_events p s2.
Proof. induction s1 as [|ev s1 IH]; simpl; [done|]. rewrite IH. lia. Qed.

Lemma at_most_app a b a' b' s1 s2 :
  at_most a b s1 → at_most a' b' s2 → at_most (a + a') (b + b') (s1 ++ s2).
Proof.
  unfold at_most. rewrite !count_events_app. lia.
Qed.

Lemma at_most_mono a b a' b' s :
  (a ≤ a')%nat → (b ≤ b')%nat → at_most a b s → at_most a' b' s.
Proof. unfold at_most. lia. Qed.

#[local] Instance at_most_none_monoidal : Monoidal (at_most 0 0).
Proof.
  split; [by split|]. intros s1 s2 H1 H2. apply (at_most_app 0 0 0 0); done.
Qed.

Lemma emits_at_most_bind {A B} a b a' b' (m : Py A) (k : A → Py B) :
  emits (at_most a b) m → (∀ x, emits (at_most a' b') (k x)) →
  emits (at_most (a + a') (b + b')) (bind m k).
Proof.
  apply emits_bind.
  - intros s1. apply at_most_mono; lia.
  - intros s1 s2. apply at_most_app.
Qed.

Lemma emits_at_most_update env i s r :
  emits (at_most 0 0) (repo_update_run_state env i s r).
Proof.
  unfold repo_update_run_state. apply (emits_repo_call (at_most 0 0)). by split.
Qed.

Lemma emits_at_most_log log line : emits (at_most 0 0) (when log (logger_info line)).
Proof. apply (emits_log (at_most 0 0)). by split. Qed.

Lemma emits_at_most_execute_operator env op :
  emits (at_most 1 1) (_execute_operator env op).
Proof.
  unfold _execute_operator, set_failed, set_running.
  destruct (doc_context op) as [c|]; [|apply emits_raise; split; simpl; lia].
  apply (emits_at_most_bind 1 0 0 1).
  - intros w r w' [= <- <-]. eexists. split; [done|]. split; simpl; lia.
  - intros [r err|o x ctx].
    + apply (emits_weaken (at_most 0 0)); [intros seg; apply at_most_mono; lia|].
      apply (emits_bind_monoidal (at_most 0 0)); [apply emits_at_most_update|].
      intros _. apply emits_ret. by split.
    + apply (emits_at_most_bind 0 0 0 1); [apply emits_at_most_update|].
      intros _ w r w' [= <- <-]. eexists. split; [done|]. split; simpl; lia.
Qed.

Lemma emits_at_most_execute_one env log op :
  emits (at_most 1 1) (execute_one env log op).
Proof.
  unfold execute_one, asyncio_run, set_completed, set_failed.
  apply (emits_try_except (at_most 1 1) (at_most 0 0)).
  - done.
  - intros s1 s2 H1 H2. apply (at_most_app 1 1 0 0); done.
  - apply (emits_at_most_bind 0 0 1 1); [apply emits_at_most_log|]. intros _.
    apply (emits_at_most_bind 1 1 0 0); [apply emits_at_most_execute_operator|].
    intros result.
    apply (emits_bind_monoidal (at_most 0 0)); [apply emits_at_most_update|].
    intros _. apply emits_at_most_log.
  - intros e.
    apply (emits_bind_monoidal (at_most 0 0)); [apply emits_at_most_update|].
    intros _. apply emits_at_most_log.
Qed.

Lemma emits_at_most_for_each env log ops :
  emits (at_most (length ops) (length ops)) (for_each ops (execute_one env log)).
Proof.
  induction ops as [|op ops IH]; simpl.
  - apply emits_ret. by split.
  - apply (emits_at_most_bind 1 1 (length ops) (length ops)).
    + apply emits_at_most_execute_one.
    + intros _. apply IH.
Qed.

(** *** What a pass leaves alone in the store *)

#[local] Instance same_fields_refl : Reflexive same_fields.
Proof. by intros d. Qed.

#[local] Instance same_fields_trans : Transitive same_fields.
Proof.
  intros d1 d2 d3 (?&?&?&?&?) (?&?&?&?&?). repeat split; congruence.
Qed.

Lemma same_fields_fmap (g : DelegatedOperationDocument → DelegatedOperationDocument) st :
  (∀ d, same_fields d (g d)) → Forall2 same_fields st (g <$> st).
Proof.
  intros Hg. induction st as [|d st IH]; simpl; constructor; auto.
Qed.

#[local] Instance same_documents_preorder : PreOrder same_documents.
Proof.
  split.
  - intros w. unfold same_documents.
    rewrite <- (list_fmap_id (store w)) at 2. by apply same_fields_fmap.
  - intros w1 w2 w3. unfold same_documents.
    apply Forall2_trans. intros d1 d2 d3. apply same_fields_trans.
Qed.

Lemma same_documents_same_store w w' : store w' = store w → same_documents w w'.
Proof.
  unfold same_documents. intros ->.
  rewrite <- (list_fmap_id (store w)) at 2. by apply same_fields_fmap.
Qed.

Lemma same_fields_ids st st' :
  Forall2 same_fields st st' → doc_id <$> st' = doc_id <$> st.
Proof.
  induction 1 as [|d d' st st' Hd _ IH]; [done|].
  rewrite !fmap_cons, IH. by destruct Hd as (-> & _).
Qed.

Lemma same_documents_ids w w' :
  same_documents w w' → doc_id <$> store w' = doc_id <$> store w.
Proof. apply same_fields_ids. Qed.

#[local] Instance frame_set_preorder ids : PreOrder (frame_set ids).
Proof.
  split.
  - by intros w j _.
  - intros w1 w2 w3 H12 H23 j Hj. by rewrite H23, H12.
Qed.

Lemma preserves_weaken (P P' : relation World) {A} (m : Py A) :
  (∀ w w', P w w' → P' w w') → preserves P m → preserves P' m.
Proof. intros HP Hm w r w' H. apply HP. by eapply Hm. Qed.

Section StoreRelations.

Context (env : Env).

Lemma same_documents_update i s r :
  preserves same_documents (repo_update_run_state env i s r).
Proof.
  intros w res w' H. apply repo_update_run_state_inv in H as [_ H].
  destruct res as [e|d]; [by apply same_documents_same_store|].
  destruct H as (Hst & _). unfold same_documents. rewrite Hst. unfold store_update.
  apply same_fields_fmap. intros d0. by destruct (has_id i d0).
Qed.

Lemma same_documents_log log line :
  preserves same_documents (when log (logger_info line)).
Proof.
  intros w r w' H. apply when_log_inv in H as (_ & H & _).
  by apply same_documents_same_store.
Qed.

Lemma same_documents_execute_operator op :
  preserves same_documents (_execute_operator env op).
Proof.
  unfold _execute_operator, set_failed, set_running.
  destruct (doc_context op) as [c|]; [|apply (preserves_raise same_documents)].
  apply (preserves_bind same_documents).
  - intros w r w' [= _ <-]. by apply same_documents_same_store.
  - intros [r err|o x ctx].
    + apply (preserves_bind same_documents); [apply same_documents_update|].
      intros _. apply (preserves_ret same_documents).
    + apply (preserves_bind same_documents); [apply same_documents_update|].
      intros _ w r w' [= _ <-]. by apply same_documents_same_store.
Qed.

Lemma same_documents_execute_one log op :
  preserves same_documents (execute_one env log op).
Proof.
  unfold execute_one, asyncio_run, set_failed, set_completed.
  apply (preserves_try_except same_documents).
  - apply (preserves_bind same_documents); [apply same_documents_log|]. intros _.
    apply (preserves_bind same_documents); [apply same_documents_execute_operator|].
    intros result.
    apply (preserves_bind same_documents); [apply same_documents_update|]. intros _.
    apply same_documents_log.
  - intros e. apply (preserves_bind same_documents); [apply same_documents_update|].
    intros _. apply same_documents_log.
Qed.

Lemma same_documents_for_each log ops :
  preserves same_documents (for_each ops (execute_one env log)).
Proof.
  apply (preserves_for_each same_documents). intros op _.
  apply same_documents_execute_one.
Qed.

Lemma frame_set_for_each log ops :
  preserves (frame_set (doc_id <$> ops)) (for_each ops (execute_one env log)).
Proof.
  apply (preserves_for_each (frame_set (doc_id <$> ops))). intros op Hop.
  apply (preserves_weaken (frame (doc_id op))); [|apply frame_execute_one].
  intros w w' H j Hj. apply H. intros ->. apply Hj. by apply list_elem_of_fmap_2.
Qed.

(** The listing step of a pass: a keyword clashes and nothing happens, or
    the listing raises and the pass ends there, or it returns the listed
    documents and the loop runs from the same store. *)
Lemma pass_inv operator delegation_target dataset_name limit log kwargs w r w' :
  let f := queued_filters operator delegation_target dataset_name kwargs in
  let paging := mkPaging <$> limit in
  execute_queued_operations env operator delegation_target dataset_name limit log
                            kwargs w = (r, w') →
  (∃ name, keyword_clash passed_by_name kwargs = Some name ∧
           r = inl (TypeError_multiple_values name) ∧ w' = w) ∨
  (∃ e, r = inl e ∧ repo_fault env (CallListOperations f paging) = Some e ∧
        w' = mkWorld (store w) (trace w ++ [EvRepo (CallListOperations f paging)])) ∨
  (repo_fault env (CallListOperations f paging) = None ∧
   for_each (listed env f paging (store w)) (execute_one env log)
            (mkWorld (store w) (trace w ++ [EvRepo (CallListOperations f paging)]))
     = (r, w')).
Proof.
  intros f paging.
  destruct (keyword_clash passed_by_name kwargs) as [name|] eqn:Hk.
  - rewrite (execute_queued_operations_clash _ _ _ _ _ _ _ name w Hk).
    intros [= <- <-]. left. by exists name.
  - rewrite execute_queued_operations_bound by done.
    unfold bind, repo_list_operations, repo_call. fold f paging.
    destruct (repo_fault env (CallListOperations f paging)) as [e|].
    + intros [= <- <-]. right. left. by exists e.
    + simpl. intros H. right. right. by split.
Qed.

Lemma pass_same_documents operator delegation_target dataset_name limit log kwargs
    w r w' :
  execute_queued_operations env operator delegation_target dataset_name limit log
                            kwargs w = (r, w') →
  same_documents w w'.
Proof.
  intros H. apply pass_inv in H as [(name & _ & _ & ->)|[(e & _ & _ & ->)|[_ H]]].
  - by apply same_documents_same_store.
  - by apply same_documents_same_store.
  - apply same_documents_for_each in H. exact H.
Qed.

Lemma pass_frame operator delegation_target dataset_name limit log kwargs w r w' j :
  execute_queued_operations env operator delegation_target dataset_name limit log
                            kwargs w = (r, w') →
  j ∉ doc_id <$> listed env (queued_filters operator delegation_target dataset_name
                                            kwargs) (mkPaging <$> limit) (store w) →
  find (has_id j) (store w') = find (has_id j) (store w).
Proof.
  intros H Hj.
  apply pass_inv in H as [(name & _ & _ & ->)|[(e & _ & _ & ->)|[_ H]]]; [done..|].
  apply frame_set_for_each in H. by apply H.
Qed.

(** In a store with unique ids, a stored document that is not listed shares
    its id with no listed document. *)
Lemma unlisted_id_not_listed f paging st j d :
  store_wf st → find (has_id j) st = Some d → d ∉ listed env f paging st →
  j ∉ doc_id <$> listed env f paging st.
Proof.
  intros Hwf Hfind Hnot Hj.
  apply list_elem_of_fmap in Hj as (op & -> & Hop).
  assert (Hin : op ∈ st).
  { by eapply (sublist_subseteq _ _ (listed_sublist env f paging st)). }
  rewrite (find_has_id_wf st op Hwf Hin) in Hfind. by injection Hfind as <-.
Qed.

End StoreRelations.

(** *** The blocks of a pass *)

(** The segment a run appends is determined by the run, so two properties
    of it hold together. *)
Lemma emits_and (Q1 Q2 : list Event → Prop) {A} (m : Py A) :
  emits Q1 m → emits Q2 m → emits (fun seg => Q1 seg ∧ Q2 seg) m.
Proof.
  intros H1 H2 w r w' H.
  destruct (H1 _ _ _ H) as (s1 & E1 & Hs1), (H2 _ _ _ H) as (s2 & E2 & Hs2).
  rewrite E1 in E2. apply app_inv_head in E2 as <-. eauto.
Qed.

#[local] Instance resolves_for_monoidal ids : Monoidal (Forall (resolves_for ids)).
Proof.
  split; [by constructor|]. intros s1 s2 H1 H2. by apply Forall_app.
Qed.

Lemma resolves_for_mono ids ids' ev :
  (∀ i, i ∈ ids → i ∈ ids') → resolves_for ids ev → resolves_for ids' ev.
Proof.
  intros Hsub. destruct ev; simpl; try done.
  intros (i & Hi & Hp). exists i. split; [by apply Hsub|done].
Qed.

Lemma emits_resolves_for_execute_operator env op :
  emits (Forall (resolves_for [doc_id op])) (_execute_operator env op).
Proof.
  set (Q := Forall (resolves_for [doc_id op])).
  unfold _execute_operator, set_failed, set_running, repo_update_run_state.
  destruct (doc_context op) as [c|]; [|apply emits_raise, monoidal_nil].
  apply (emits_bind_monoidal Q).
  - apply (emits_prepare Q). constructor; [|constructor].
    exists (doc_id op). split; [by left|]. simpl. apply lookup_insert_eq.
  - intros [r err|o x ctx].
    + apply (emits_bind_monoidal Q); [apply (emits_repo_call Q); by repeat constructor|].
      intros _. apply emits_ret, monoidal_nil.
    + apply (emits_bind_monoidal Q); [apply (emits_repo_call Q); by repeat constructor|].
      intros _. apply (emits_operator_execute Q). by repeat constructor.
Qed.

Lemma emits_resolves_for_execute_one env log op :
  emits (Forall (resolves_for [doc_id op])) (execute_one env log op).
Proof.
  set (Q := Forall (resolves_for [doc_id op])).
  assert (Hlog : ∀ line, emits Q (when log (logger_info line))).
  { intros line. apply (emits_log Q). by repeat constructor. }
  assert (Hupd : ∀ s r, emits Q (repo_update_run_state env (doc_id op) s r)).
  { intros s r. unfold repo_update_run_state. apply (emits_repo_call Q).
    by repeat constructor. }
  unfold execute_one, asyncio_run, set_completed, set_failed.
  apply (emits_try_except_monoidal Q).
  - apply (emits_bind_monoidal Q); [apply Hlog|]. intros _.
    apply (emits_bind_monoidal Q); [apply emits_resolves_for_execute_operator|].
    intros result. apply (emits_bind_monoidal Q); [apply Hupd|]. intros _. apply Hlog.
  - intros e. apply (emits_bind_monoidal Q); [apply Hupd|]. intros _. apply Hlog.
Qed.

(** One iteration appends a block of its document. *)
Lemma emits_block_of env log op : emits (block_of env op) (execute_one env log op).
Proof.
  unfold block_of.
  apply (emits_and (at_most 1 1)); [apply emits_at_most_execute_one|].
  apply (emits_and (Forall (resolves_for [doc_id op])));
    [apply emits_resolves_for_execute_one|].
  apply (emits_and (Forall (pass_call [doc_id op])));
    [apply emits_pass_call_execute_one|apply emits_guarded_execute_one].
Qed.

(** A loop appends one segment per element it ran its body on, in order:
    on all of them when it returns, on a prefix when it raises. *)
Lemma for_each_blocks {A} (Q : A → list Event → Prop) (xs : list A) body w r w' :
  (∀ x, emits (Q x) (body x)) →
  for_each xs body w = (r, w') →
  ∃ blocks,
    trace w' = trace w ++ concat blocks ∧
    Forall2 Q (take (length blocks) xs) blocks ∧
    (r = inr tt → length blocks = length xs).
Proof.
  intros HQ. revert w. induction xs as [|x xs IH]; intros w; simpl.
  - intros [= <- <-]. exists []. simpl. rewrite app_nil_r.
    split; [done|]. split; [constructor|done].
  - unfold bind. destruct (body x w) as [[e|[]] w1] eqn:E;
      destruct (HQ x _ _ _ E) as (s1 & Htr1 & Hs1).
    + intros [= <- <-]. exists [s1]. simpl. rewrite app_nil_r. split; [done|].
      split; [|done]. by repeat constructor.
    + intros H. destruct (IH _ H) as (blocks & Htr & HF & Hlen).
      exists (s1 :: blocks). simpl. rewrite Htr, Htr1, <- app_assoc. split; [done|].
      split; [by constructor|]. intros Hr. by rewrite Hlen.
Qed.

Lemma emits_pass_call_for_each env log ops :
  emits (Forall (pass_call (doc_id <$> ops))) (for_each ops (execute_one env log)).
Proof.
  apply (emits_for_each (Forall (pass_call _))). intros op Hop.
  apply (emits_weaken (Forall (pass_call [doc_id op])));
    [|apply emits_pass_call_execute_one].
  intros seg Hseg. eapply Forall_impl; [exact Hseg|].
  intros ev. apply pass_call_mono.
  intros i Hi. apply list_elem_of_singleton in Hi as ->. by apply list_elem_of_fmap_2.
Qed.

Lemma emits_resolves_for_for_each env log ops :
  emits (Forall (resolves_for (doc_id <$> ops))) (for_each ops (execute_one env log)).
Proof.
  apply (emits_for_each (Forall (resolves_for _))). intros op Hop.
  apply (emits_weaken (Forall (resolves_for [doc_id op])));
    [|apply emits_resolves_for_execute_one].
  intros seg Hseg. eapply Forall_impl; [exact Hseg|].
  intros ev. apply resolves_for_mono.
  intros i Hi. apply list_elem_of_singleton in Hi as ->. by apply list_elem_of_fmap_2.
Qed.

Lemma emits_guarded_for_each env log ops :
  emits (guarded env None) (for_each ops (execute_one env log)).
Proof.
  apply (emits_for_each (guarded env None)). intros op _.
  apply emits_guarded_execute_one.
Qed.

(** A trace of calls of a pass over [ids] writes to no other document. *)
Lemma writes_pass_call ids j tr :
  Forall (pass_call ids) tr → j ∉ ids → writes j tr = [].
Proof.
  intros Htr Hj. induction Htr as [|ev tr Hev _ IH]; [done|].
  destruct ev as [[| i s r | |]| | |]; simpl; try done.
  destruct Hev as [Hi _]. rewrite bool_decide_eq_false_2; [done|]. by intros ->.
Qed.

(** ** Further properties of the pass, for every backend *)


(** X2: in every pass, an operator's execution comes directly after a
    RUNNING write that the backend answered: no operator is executed when
    the RUNNING write of its document is rejected. *)
Theorem execution_follows_running_write env operator delegation_target dataset_name
    limit log kwargs w r w' :
  execute_queued_operations env operator delegation_target dataset_name limit log
                            kwargs w = (r, w') →
  ∃ seg,
    trace w' = trace w ++ seg ∧
    ∀ t1 uri ctx t2,
      seg = t1 ++ EvExecute uri ctx :: t2 →
      ∃ t0 i,
        t1 = t0 ++ [EvRepo (CallUpdateRunState i RUNNING PyNone)] ∧
        repo_fault env (CallUpdateRunState i RUNNING PyNone) = None.
Proof.
  intros H.
  destruct (pass_segment_any (guarded env None) env operator delegation_target
              dataset_name limit log kwargs w r w')
    as (head & seg & Htr & Hhead & Hseg); [done|apply emits_guarded_for_each|done|].
  exists (head ++ seg). split; [exact Htr|].
  intros t1 uri ctx t2 Heq.
  assert (Hg : guarded env None (t1 ++ EvExecute uri ctx :: t2)).
  { rewrite <- Heq. apply guarded_app; [|done]. by destruct Hhead as [-> | ->]. }
  apply guarded_execute in Hg. destruct Hg as (i & Hlast & Hf).
  destruct (last t1) as [ev|] eqn:El; [|done].
  injection Hlast as ->. apply last_Some in El as [t0 ->]. by exists t0, i.
Qed.

(** X3: a pass resolves and executes at most once per listed document,
    whatever the backend does.  After at most the listing call, the calls
    of a pass are one block per listed document, in the order of the listing:
    a block for every listed document when the pass returns, for the first
    ones when it raises.  The block of a document holds at most one
    resolution, made with that document's id under "run_doc"; at most one
    execution, directly after an answered RUNNING write; and no write to
    another document. *)
Theorem pass_resolves_and_executes_at_most_once env operator delegation_target
    dataset_name limit log kwargs w r w' :
  execute_queued_operations env operator delegation_target dataset_name limit log
                            kwargs w = (r, w') →
  let f := queued_filters operator delegation_target dataset_name kwargs in
  let paging := mkPaging <$> limit in
  let ops := listed env f paging (store w) in
  ∃ head blocks,
    trace w' = trace w ++ head ++ concat blocks ∧
    (head = [] ∨ head = [EvRepo (CallListOperations f paging)]) ∧
    Forall2 (block_of env) (take (length blocks) ops) blocks ∧
    (r = inr tt → length blocks = length ops).
Proof.
  intros H f paging ops.
  apply pass_inv in H as [(name & _ & -> & ->)|[(e & -> & _ & ->)|[_ H]]].
  - exists [], []. simpl. rewrite app_nil_r. split; [done|]. split; [by left|].
    split; [constructor|done].
  - exists [EvRepo (CallListOperations f paging)], []. simpl.
    split; [done|]. split; [by right|]. split; [constructor|done].
  - apply (for_each_blocks (block_of env)) in H as (blocks & Htr & HF & Hlen);
      [|intros op; apply emits_block_of].
    exists [EvRepo (CallListOperations f paging)], blocks. simpl in Htr.
    rewrite Htr, <- app_assoc. split; [done|]. split; [by right|]. by split.
Qed.

(** X4: a pass changes nothing but run states and results: after it, whether
    it returned or raised, the store holds the same documents in the same
    order with the same id, operator, delegation target, context and pinned
    flag (the [run_doc] key put into the request parameters is not stored). *)
Theorem pass_changes_run_state_and_result_only env operator delegation_target
    dataset_name limit log kwargs w r w' :
  execute_queued_operations env operator delegation_target dataset_name limit log
                            kwargs w = (r, w') →
  Forall2 same_fields (store w) (store w').
Proof. apply pass_same_documents. Qed.

(** X5: in a store with unique ids, a stored document that the listing does
    not return (it does not match the filters, or lies beyond the limit) is
    stored unchanged after the pass, whatever the outcome of the pass. *)
Theorem unlisted_documents_untouched env operator delegation_target dataset_name
    limit log kwargs w r w' j d :
  store_wf (store w) →
  execute_queued_operations env operator delegation_target dataset_name limit log
                            kwargs w = (r, w') →
  find (has_id j) (store w) = Some d →
  d ∉ listed env (queued_filters operator delegation_target dataset_name kwargs)
             (mkPaging <$> limit) (store w) →
  find (has_id j) (store w') = Some d.
Proof.
  intros Hwf H Hfind Hnot. rewrite <- Hfind.
  eapply pass_frame; [exact H|]. by eapply unlisted_id_not_listed.
Qed.

(** X6: in a store with unique ids, a document that is RUNNING, COMPLETED or
    FAILED when a pass starts is never picked up by it, whatever the filters,
    the limit and the backend: the pass makes no [update_run_state] call for
    it, resolves no operator with its id under "run_doc", executes an
    operator only directly after the RUNNING write of another document, and
    leaves it stored as it was. *)
Theorem documents_not_queued_untouched env operator delegation_target dataset_name
    limit log kwargs w r w' j d :
  store_wf (store w) →
  execute_queued_operations env operator delegation_target dataset_name limit log
                            kwargs w = (r, w') →
  find (has_id j) (store w) = Some d →
  doc_run_state d ≠ QUEUED →
  find (has_id j) (store w') = Some d ∧
  ∃ seg,
    trace w' = trace w ++ seg ∧
    writes j seg = [] ∧
    (∀ uri params, EvPrepare uri params ∈ seg →
       params !! "run_doc" ≠ Some (PyObjectId j)) ∧
    (∀ t1 uri ctx t2,
       seg = t1 ++ EvExecute uri ctx :: t2 →
       ∃ t0 i, t1 = t0 ++ [EvRepo (CallUpdateRunState i RUNNING PyNone)] ∧ i ≠ j).
Proof.
  intros Hwf H Hfind Hs.
  set (f := queued_filters operator delegation_target dataset_name kwargs).
  set (paging := mkPaging <$> limit).
  set (ids := doc_id <$> listed env f paging (store w)).
  assert (Hj : j ∉ ids).
  { eapply unlisted_id_not_listed; [done..|].
    intros Hd. apply Hs. eapply listed_queued; [|exact Hd]. reflexivity. }
  split.
  { rewrite <- Hfind. eapply pass_frame; [exact H|exact Hj]. }
  destruct (pass_segment_any
              (fun seg => Forall (pass_call ids) seg ∧
                          Forall (resolves_for ids) seg ∧ guarded env None seg)
              env operator delegation_target dataset_name limit log kwargs w r w')
    as (head & seg & Htr & Hhead & Hcall & Hres & Hgd).
  { by repeat split. }
  { apply (emits_and (Forall (pass_call ids))); [apply emits_pass_call_for_each|].
    apply (emits_and (Forall (resolves_for ids)));
      [apply emits_resolves_for_for_each|apply emits_guarded_for_each]. }
  { exact H. }
  assert (Hcall' : Forall (pass_call ids) (head ++ seg)).
  { apply Forall_app. split; [|done]. destruct Hhead as [-> | ->]; by repeat constructor. }
  assert (Hres' : Forall (resolves_for ids) (head ++ seg)).
  { apply Forall_app. split; [|done]. destruct Hhead as [-> | ->]; by repeat constructor. }
  assert (Hgd' : guarded env None (head ++ seg)).
  { apply guarded_app; [|done]. by destruct Hhead as [-> | ->]. }
  exists (head ++ seg). split; [exact Htr|].
  split; [by eapply writes_pass_call|]. split.
  - intros uri params Hin Heq. rewrite Forall_forall in Hres'.
    destruct (Hres' _ Hin) as (i & Hi & Hp). rewrite Hp in Heq.
    injection Heq as ->. done.
  - intros t1 uri ctx t2 Heq. rewrite Heq in Hgd', Hcall'.
    apply guarded_execute in Hgd' as (i & Hlast & _).
    destruct (last t1) as [ev|] eqn:El; [|done].
    injection Hlast as ->. apply last_Some in El as [t0 ->].
    exists t0, i. split; [done|].
    apply Forall_app in Hcall' as [Hcall' _]. apply Forall_app in Hcall' as [_ Hcall'].
    apply Forall_cons in Hcall' as [[Hi _] _]. by intros ->.
Qed.

Lemma repo_queue_operation_wf env kw w r w' :
  store_wf (store w) → repo_queue_operation env kw w = (r, w') → store_wf (store w').
Proof.
  intros Hwf H. destruct r as [e|d]; [|by eapply queue_operation_store_wf].
  revert H. unfold repo_queue_operation, repo_call.
  destruct (repo_fault env _); [|done]. by intros [= _ <-].
Qed.

Lemma repo_get_store env i w r w' : repo_get env i w = (r, w') → store w' = store w.
Proof.
  unfold repo_get, repo_call. destruct (repo_fault env _); [by intros [= _ <-]|].
  destruct (find (has_id i) (store w)); by intros [= _ <-].
Qed.

(** X7: unique ids are an invariant of the service: from a store with unique
    ids, queueing, rerunning, each of the three state transitions and a whole
    pass lead to a store with unique ids, whether they return or raise. *)
Theorem service_keeps_ids_unique env w :
  store_wf (store w) →
  (∀ operator delegation_target context,
     store_wf (store (queue_operation env operator delegation_target context w).2)) ∧
  (∀ i, store_wf (store (rerun_operation env i w).2)) ∧
  (∀ i result,
     store_wf (store (set_running env i w).2) ∧
     store_wf (store (set_completed env i result w).2) ∧
     store_wf (store (set_failed env i result w).2)) ∧
  (∀ operator delegation_target dataset_name limit log kwargs,
     store_wf (store (execute_queued_operations env operator delegation_target
                        dataset_name limit log kwargs w).2)).
Proof.
  intros Hwf. repeat split.
  - intros operator delegation_target context. unfold queue_operation.
    destruct (repo_queue_operation env _ w) as [r w'] eqn:E.
    by eapply repo_queue_operation_wf.
  - intros i. unfold rerun_operation, bind.
    destruct (repo_get env i w) as [[e|doc] w1] eqn:E;
      apply repo_get_store in E; simpl.
    + by rewrite E.
    + destruct (repo_queue_operation env (doc_dict doc) w1) as [r w'] eqn:E'.
      eapply repo_queue_operation_wf; [|exact E']. by rewrite E.
  - unfold set_running.
    destruct (repo_update_run_state env i RUNNING PyNone w) as [r w'] eqn:E.
    by eapply update_run_state_store_wf.
  - unfold set_completed.
    destruct (repo_update_run_state env i COMPLETED result w) as [r w'] eqn:E.
    by eapply update_run_state_store_wf.
  - unfold set_failed.
    destruct (repo_update_run_state env i FAILED result w) as [r w'] eqn:E.
    by eapply update_run_state_store_wf.
  - intros operator delegation_target dataset_name limit log kwargs.
    destruct (execute_queued_operations env operator delegation_target dataset_name
                limit log kwargs w) as [r w'] eqn:E.
    unfold store_wf. simpl.
    by rewrite (same_documents_ids _ _ (pass_same_documents env _ _ _ _ _ _ _ _ _ E)).
Qed.

(** *** When a pass raises *)

Lemma try_except_inl {A} (body : Py A) handler w e w' :
  try_except body handler w = (inl e, w') →
  ∃ e0 w1, body w = (inl e0, w1) ∧ handler e0 w1 = (inl e, w').
Proof.
  unfold try_except. destruct (body w) as [[e0|a] w1]; [|done].
  intros H. by exists e0, w1.
Qed.

(** An iteration raises only what its handler's FAILED write raises. *)
Lemma execute_one_inl env log op w e w' :
  execute_one env log op w = (inl e, w') →
  ∃ e0 w1,
    same_documents w w1 ∧
    set_failed env (doc_id op) (ExecutionResult_error (format_exc e0)) w1 = (inl e, w').
Proof.
  unfold execute_one. intros H.
  apply try_except_inl in H as (e0 & w1 & Hbody & Hhandler).
  exists e0, w1. split.
  - revert Hbody. unfold asyncio_run, set_completed.
    apply (preserves_bind same_documents); [apply same_documents_log|]. intros _.
    apply (preserves_bind same_documents); [apply same_documents_execute_operator|].
    intros result.
    apply (preserves_bind same_documents); [apply same_documents_update|]. intros _.
    apply same_documents_log.
  - apply bind_inl in Hhandler as [H|(d & w2 & _ & H)]; [done|].
    by apply when_log_inv in H as (? & _).
Qed.

(** X8: what a pass can raise.  An exception of the resolver, of an operator
    or of a rejected RUNNING or COMPLETED write never leaves the pass.  When
    the pass raises, either a keyword of [kwargs] repeats one that the pass
    passes by name, the exception is the [TypeError] of that call and nothing
    was called; or the backend rejected the listing with that exception and
    nothing else was called; or the last call of the pass is the handler's
    FAILED write for a listed document, which the backend rejected with that
    exception. *)
Theorem pass_raises_only_from_listing_or_handler env operator delegation_target
    dataset_name limit log kwargs w e w' :
  execute_queued_operations env operator delegation_target dataset_name limit log
                            kwargs w = (inl e, w') →
  (∃ name, keyword_clash passed_by_name kwargs = Some name ∧
           e = TypeError_multiple_values name ∧ w' = w) ∨
  (keywords_bind kwargs ∧
   repo_fault env (CallListOperations
                     (queued_filters operator delegation_target dataset_name kwargs)
                     (mkPaging <$> limit)) = Some e ∧
   w' = mkWorld (store w)
          (trace w ++
           [EvRepo (CallListOperations
                      (queued_filters operator delegation_target dataset_name kwargs)
                      (mkPaging <$> limit))])) ∨
  (keywords_bind kwargs ∧
   ∃ op e0 t,
     op ∈ listed env (queued_filters operator delegation_target dataset_name kwargs)
                 (mkPaging <$> limit) (store w) ∧
     trace w' = t ++ [EvRepo (CallUpdateRunState (doc_id op) FAILED
                                (ExecutionResult_error (format_exc e0)))] ∧
     repo_fault env (CallUpdateRunState (doc_id op) FAILED
                       (ExecutionResult_error (format_exc e0))) = Some e).
Proof.
  intros H.
  destruct (keyword_clash passed_by_name kwargs) as [name|] eqn:Hk.
  { left. exists name. split; [done|].
    rewrite (execute_queued_operations_clash _ _ _ _ _ _ _ name w Hk) in H.
    by injection H as <- <-. }
  right.
  apply pass_inv in H as [(name & Hk' & _)|[(e1 & [= <-] & Hf & Hw)|[_ H]]];
    [congruence|by left|].
  right. split; [done|].
  apply for_each_inl in H as (l1 & op & l2 & w1 & Hsplit & Hl1 & Hop).
  apply execute_one_inl in Hop as (e0 & w2 & Hsame & Hfail).
  unfold set_failed in Hfail.
  apply repo_update_run_state_inl in Hfail as [-> [Hf|Hnone]].
  - exists op, e0, (trace w2). split; [|by split].
    rewrite Hsplit. apply elem_of_app. right. by left.
  - exfalso.
    assert (Hin : doc_id op ∈ doc_id <$> store w2).
    { rewrite (same_documents_ids _ _ Hsame).
      rewrite (same_documents_ids _ _ (same_documents_for_each env log l1 _ _ _ Hl1)).
      simpl. apply list_elem_of_fmap_2.
      eapply (sublist_subseteq _ _ (listed_sublist env _ _ (store w))).
      rewrite Hsplit. apply elem_of_app. right. by left. }
    apply find_has_id_is_Some in Hin as [d Hd]. congruence.
Qed.

Lemma elem_of_tail {A} (x : A) l : x ∈ tail l → x ∈ l.
Proof. destruct l; [done|]. by right. Qed.

(** X9: where a pass that raises leaves the queue, in a store with unique
    ids: the listed documents before the one at which it stopped are in a
    terminal state, and the listed documents after that one are stored
    exactly as they were listed, still QUEUED. *)
Theorem aborted_pass_leaves_rest_queued env operator delegation_target dataset_name
    limit log kwargs w e w' :
  store_wf (store w) →
  execute_queued_operations env operator delegation_target dataset_name limit log
                            kwargs w = (inl e, w') →
  ∃ l1 l2,
    listed env (queued_filters operator delegation_target dataset_name kwargs)
           (mkPaging <$> limit) (store w) = l1 ++ l2 ∧
    (∀ d, d ∈ l1 → terminal_at (doc_id d) w') ∧
    (∀ d, d ∈ tail l2 →
       find (has_id (doc_id d)) (store w') = Some d ∧ doc_run_state d = QUEUED).
Proof.
  intros Hwf H.
  set (f := queued_filters operator delegation_target dataset_name kwargs) in *.
  set (paging := mkPaging <$> limit) in *.
  assert (Hstored : ∀ d, d ∈ listed env f paging (store w) →
                         find (has_id (doc_id d)) (store w) = Some d ∧
                         doc_run_state d = QUEUED).
  { intros d Hd. split; [|eapply listed_queued; [|exact Hd]; reflexivity].
    apply find_has_id_wf; [done|].
    by eapply (sublist_subseteq _ _ (listed_sublist env f paging (store w))). }
  assert (Hnone : ∀ st' : list DelegatedOperationDocument, st' = store w →
            ∃ l1 l2,
              listed env f paging (store w) = l1 ++ l2 ∧
              (∀ d, d ∈ l1 → terminal_at (doc_id d) (mkWorld st' (trace w'))) ∧
              (∀ d, d ∈ tail l2 →
                 find (has_id (doc_id d)) st' = Some d ∧ doc_run_state d = QUEUED)).
  { intros st' ->. exists [], (listed env f paging (store w)).
    split; [reflexivity|]. split.
    - intros d Hd. by apply elem_of_nil in Hd.
    - intros d Hd. apply Hstored. by apply elem_of_tail. }
  apply pass_inv in H as [(name & _ & _ & ->)|[(e1 & _ & _ & ->)|[_ H]]]; subst f paging.
  - destruct (Hnone (store w) eq_refl) as (l1 & l2 & Hl & H1 & H2).
    exists l1, l2. split; [done|]. split; [|done].
    intros d Hd. destruct (H1 d Hd) as (d' & Hd' & Ht). by exists d'.
  - destruct (Hnone (store w) eq_refl) as (l1 & l2 & Hl & H1 & H2).
    exists l1, l2. split; [done|]. split; [|done].
    intros d Hd. destruct (H1 d Hd) as (d' & Hd' & Ht). by exists d'.
  - apply for_each_inl in H as (l1 & op & l2 & w1 & Hsplit & Hl1 & Hop).
    pose proof (listed_NoDup env
                  (queued_filters operator delegation_target dataset_name kwargs)
                  (mkPaging <$> limit) _ Hwf) as Hnd.
    rewrite Hsplit, fmap_app, fmap_cons in Hnd.
    apply NoDup_app in Hnd as (_ & Hdisj & Hnd2). apply NoDup_cons in Hnd2 as [Hnot2 Hnd2].
    exists l1, (op :: l2). split; [done|]. split.
    + intros d Hd.
      destruct (for_each_returns_terminal env log l1 _ _ Hl1 d Hd) as (d' & Hfind & Ht).
      exists d'. split; [|done]. rewrite <- Hfind.
      apply (frame_execute_one env log op _ _ _ Hop).
      intros Heq. apply (Hdisj (doc_id d)); [by apply list_elem_of_fmap_2|].
      rewrite Heq. by left.
    + simpl. intros d Hd.
      destruct (Hstored d) as [Hfind Hq].
      { rewrite Hsplit. apply elem_of_app. right. by right. }
      split; [|done]. rewrite <- Hfind.
      assert (Hne : doc_id d ≠ doc_id op).
      { intros Heq. apply Hnot2. rewrite <- Heq. by apply list_elem_of_fmap_2. }
      rewrite (frame_execute_one env log op _ _ _ Hop _ Hne).
      apply (frame_set_for_each env log l1 _ _ _ Hl1).
      intros Hin. apply (Hdisj _ Hin). right. by apply list_elem_of_fmap_2.
Qed.

(** *** Documents that cannot be resolved *)

Lemma prepare_of_doc_events env log op uri params :
  EvPrepare uri params ∈ doc_events env log op →
  params !! "run_doc" = Some (PyObjectId (doc_id op)).
Proof.
  unfold doc_events, failed_with, log_line.
  destruct log; simpl;
    (destruct (doc_context op) as [c|]; simpl;
     [ destruct (prepare_operator_executor env _ _) as [e|[r err|o x ctx]]; simpl;
       [ | | destruct (op_execute o ctx) as [e|v]; simpl ] | ]);
    intros H;
    repeat match goal with
           | H : _ ∈ _ :: _ |- _ => apply elem_of_cons in H as [H|H]
           | H : _ ∈ [] |- _ => by apply elem_of_nil in H
           end; try done;
    injection H as -> ->; apply lookup_insert_eq.
Qed.

Lemma prepare_of_flat_map env log ops uri params :
  EvPrepare uri params ∈ flat_map (doc_events env log) ops →
  ∃ op, op ∈ ops ∧ params !! "run_doc" = Some (PyObjectId (doc_id op)).
Proof.
  induction ops as [|op ops IH]; simpl.
  - intros H. by apply elem_of_nil in H.
  - rewrite elem_of_app. intros [H|H].
    + exists op. split; [by left|]. by eapply prepare_of_doc_events.
    + destruct (IH H) as (op' & Hop' & Hp). exists op'. split; [by right|done].
Qed.

(** X10: when [prepare_operator_executor] itself raises for a listed
    document, the pass goes on and returns; the call after the resolution is
    the FAILED write carrying the error trace of the exception, FAILED is the
    only run state written for the document, and it is stored FAILED with that
    error trace as its result.  The pass is one that lists: its keywords
    repeat none of those passed by name to the listing. *)
Theorem resolver_exception_recorded env operator delegation_target dataset_name
    limit log kwargs w op context e :
  keywords_bind kwargs →
  no_faults env → store_wf (store w) →
  op ∈ listed env (queued_filters operator delegation_target dataset_name kwargs)
              (mkPaging <$> limit) (store w) →
  doc_context op = Some context →
  prepare_operator_executor env (doc_operator op) (injected op context) = inl e →
  ∃ w' tr t1 t2 d,
    execute_queued_operations env operator delegation_target dataset_name limit log
                              kwargs w = (inr tt, w') ∧
    trace w' = trace w ++ tr ∧
    tr = t1 ++ [EvPrepare (doc_operator op) (injected op context);
                EvRepo (CallUpdateRunState (doc_id op) FAILED
                          (ExecutionResult_error (format_exc e)))] ++ t2 ∧
    transitions (doc_id op) tr = [FAILED] ∧
    find (has_id (doc_id op)) (store w') = Some d ∧
    doc_run_state d = FAILED ∧
    doc_result d = ExecutionResult_error (format_exc e).
Proof.
  intros Hkw Hnf Hwf Hop Hc Hp.
  destruct (pass_document env operator delegation_target dataset_name limit log kwargs
              w op Hkw Hnf Hwf Hop) as (w' & t1 & t2 & Hrun & Htr & Hw & Hfind).
  assert (Hev : doc_events env log op =
                log_line log (LogRunning (doc_id op) (doc_operator op)) ++
                [EvPrepare (doc_operator op) (injected op context);
                 EvRepo (CallUpdateRunState (doc_id op) FAILED
                           (ExecutionResult_error (format_exc e)))] ++
                log_line log (LogFailed (doc_id op))).
  { unfold doc_events. by rewrite Hc, Hp. }
  assert (Hwr : writes (doc_id op) (doc_events env log op) =
                [(FAILED, ExecutionResult_error (format_exc e))]).
  { rewrite Hev. destruct log; simpl; rewrite !bool_decide_eq_true_2 by done; done. }
  exists w', (t1 ++ doc_events env log op ++ t2),
         (t1 ++ log_line log (LogRunning (doc_id op) (doc_operator op))),
         (log_line log (LogFailed (doc_id op)) ++ t2).
  eexists. split; [exact Hrun|]. split; [exact Htr|].
  split; [rewrite Hev, <- !app_assoc; reflexivity|].
  split; [unfold transitions; by rewrite Hw, Hwr|].
  rewrite Hwr in Hfind. by split; [exact Hfind|].
Qed.

(** X11: a listed document that carries no context (it was queued with the
    default [context=None]) makes [_execute_operator] raise before anything
    is resolved: the pass never calls the resolver for it, writes FAILED for
    it and nothing else, stores it FAILED with an error trace as its result,
    and goes on to return.  The pass is one that lists: its keywords repeat
    none of those passed by name to the listing. *)
Theorem missing_context_recorded env operator delegation_target dataset_name
    limit log kwargs w op :
  keywords_bind kwargs →
  no_faults env → store_wf (store w) →
  op ∈ listed env (queued_filters operator delegation_target dataset_name kwargs)
              (mkPaging <$> limit) (store w) →
  doc_context op = None →
  ∃ w' tr d tb,
    execute_queued_operations env operator delegation_target dataset_name limit log
                              kwargs w = (inr tt, w') ∧
    trace w' = trace w ++ tr ∧
    (∀ uri params, EvPrepare uri params ∈ tr →
       params !! "run_doc" ≠ Some (PyObjectId (doc_id op))) ∧
    transitions (doc_id op) tr = [FAILED] ∧
    find (has_id (doc_id op)) (store w') = Some d ∧
    doc_run_state d = FAILED ∧
    doc_result d = ExecutionResult_error tb.
Proof.
  intros Hkw Hnf Hwf Hop Hc.
  set (f := queued_filters operator delegation_target dataset_name kwargs) in *.
  set (paging := mkPaging <$> limit) in *.
  pose proof (execute_queued_operations_no_faults env Hnf operator delegation_target
                dataset_name limit log kwargs w Hkw) as Hrun.
  simpl in Hrun. fold f paging in Hrun.
  pose proof (listed_NoDup env f paging _ Hwf) as Hnd.
  assert (Hin : op ∈ store w).
  { by eapply (sublist_subseteq _ _ (listed_sublist env f paging (store w))). }
  destruct (list_elem_of_split _ _ Hop) as (l1 & l2 & Hsplit).
  rewrite Hsplit in Hrun, Hnd.
  rewrite fmap_app, fmap_cons in Hnd.
  apply NoDup_app in Hnd as (_ & Hdisj & Hnd2). apply NoDup_cons in Hnd2 as [Hnot2 _].
  assert (Hnot1 : doc_id op ∉ doc_id <$> l1).
  { intros Hi. apply (Hdisj _ Hi). by left. }
  assert (Hev : doc_events env log op =
                log_line log (LogRunning (doc_id op) (doc_operator op)) ++
                [failed_with op AttributeError_request_params] ++
                log_line log (LogFailed (doc_id op))).
  { unfold doc_events. by rewrite Hc. }
  assert (Hwr : writes (doc_id op)
                  (EvRepo (CallListOperations f paging) ::
                   flat_map (doc_events env log) (l1 ++ op :: l2)) =
                [(FAILED, ExecutionResult_error (format_exc AttributeError_request_params))]).
  { simpl. rewrite flat_map_app. simpl.
    rewrite !writes_app, (writes_flat_map_other env log l1),
      (writes_flat_map_other env log l2) by done.
    rewrite Hev. unfold failed_with.
    destruct log; simpl; rewrite !bool_decide_eq_true_2 by done; done. }
  eexists _, _, _, _. split; [exact Hrun|]. simpl. split; [reflexivity|]. split.
  - intros uri params Hp Heq.
    apply elem_of_cons in Hp as [Hp|Hp]; [done|].
    rewrite flat_map_app in Hp. simpl in Hp. rewrite !elem_of_app in Hp.
    destruct Hp as [Hp|[Hp|Hp]].
    + apply prepare_of_flat_map in Hp as (op' & Hop' & Hp). rewrite Hp in Heq.
      injection Heq as Heq. apply Hnot1. rewrite <- Heq. by apply list_elem_of_fmap_2.
    + rewrite Hev in Hp. unfold failed_with, log_line in Hp.
      destruct log; simpl in Hp;
        repeat match goal with
               | H : _ ∈ _ :: _ |- _ => apply elem_of_cons in H as [H|H]
               | H : _ ∈ [] |- _ => by apply elem_of_nil in H
               end; done.
    + apply prepare_of_flat_map in Hp as (op' & Hop' & Hp). rewrite Hp in Heq.
      injection Heq as Heq. apply Hnot2. rewrite <- Heq. by apply list_elem_of_fmap_2.
  - split; [unfold transitions; by rewrite Hwr|].
    rewrite find_replay.
    assert (Hw2 : writes (doc_id op) (flat_map (doc_events env log) (l1 ++ op :: l2)) =
                  [(FAILED, ExecutionResult_error
                              (format_exc AttributeError_request_params))]).
    { simpl in Hwr. exact Hwr. }
    rewrite Hw2, (find_has_id_wf _ _ Hwf Hin). simpl. by split; [reflexivity|].
Qed.

(** *** A pass after a pass *)

Lemma matches_queued env f d :
  f_run_state f = Some QUEUED → matches env f d = true → doc_run_state d = QUEUED.
Proof.
  intros Hf Hm. unfold matches in Hm. rewrite Hf in Hm. simpl in Hm.
  repeat (apply andb_prop in Hm as [Hm ?]).
  match goal with
  | H : bool_decide _ = true |- _ => apply bool_decide_eq_true in H; congruence
  end.
Qed.

(** X12: passes compose: after a pass without limit over a backend that
    answers, in a store with unique ids, no stored document matches the same
    filters any more, so a second pass with these filters (whatever its limit
    and log flag) makes the listing call and nothing else, and leaves the
    store as the first pass left it.  The keywords of the two passes repeat
    none of those passed by name to the listing. *)
Theorem second_pass_is_idle env operator delegation_target dataset_name log kwargs
    limit' log' w :
  keywords_bind kwargs →
  no_faults env → store_wf (store w) →
  ∃ w1,
    execute_queued_operations env operator delegation_target dataset_name None log
                              kwargs w = (inr tt, w1) ∧
    execute_queued_operations env operator delegation_target dataset_name limit' log'
                              kwargs w1 =
    (inr tt,
     mkWorld (store w1)
             (trace w1 ++
              [EvRepo (CallListOperations
                         (queued_filters operator delegation_target dataset_name kwargs)
                         (mkPaging <$> limit'))])).
Proof.
  intros Hkw Hnf Hwf.
  set (f := queued_filters operator delegation_target dataset_name kwargs).
  pose proof (execute_queued_operations_no_faults env Hnf operator delegation_target
                dataset_name None log kwargs w Hkw) as Hrun.
  simpl in Hrun. fold f in Hrun.
  set (ops := listed env f None (store w)) in *.
  set (tr := flat_map (doc_events env log) ops) in *.
  eexists. split; [exact Hrun|].
  rewrite (execute_queued_operations_no_faults env Hnf _ _ _ _ _ _ _ Hkw). simpl. fold f.
  assert (Hnone : filter (fun d => matches env f d = true) (replay tr (store w)) = []).
  { apply elem_of_nil_inv. intros d' Hd'.
    apply list_elem_of_filter in Hd' as [Hm Hin].
    assert (Hwf' : store_wf (replay tr (store w))).
    { unfold store_wf. by rewrite replay_ids. }
    pose proof (find_has_id_wf _ _ Hwf' Hin) as Hfind.
    rewrite find_replay in Hfind.
    destruct (find (has_id (doc_id d')) (store w)) as [d|] eqn:Hd; [|done].
    simpl in Hfind. injection Hfind as Hd'.
    destruct (matches env f d) eqn:Hmd.
    - assert (Hop : d ∈ ops).
      { unfold ops, listed, page. apply list_elem_of_filter. split; [done|].
        by apply find_has_id_Some in Hd as [_ ?]. }
      destruct (pass_returns_terminal env operator delegation_target dataset_name None
                  log kwargs w _ d Hrun Hop) as (d'' & Hfind'' & Ht).
      simpl in Hfind''. rewrite find_replay in Hfind''.
      apply find_has_id_Some in Hd as [Hid Hdin].
      rewrite (find_has_id_wf _ _ Hwf Hdin) in Hfind''. simpl in Hfind''.
      injection Hfind'' as <-. rewrite Hid in Ht.
      unfold tr, ops, listed, page in Hd'. rewrite Hd' in Ht.
      apply (matches_queued env f d' eq_refl) in Hm. destruct Ht; congruence.
    - assert (Hnot : doc_id d' ∉ doc_id <$> ops).
      { eapply unlisted_id_not_listed; [exact Hwf|exact Hd|].
        unfold listed, page. rewrite list_elem_of_filter. intros [? _]. congruence. }
      unfold tr in Hd'.
      rewrite (writes_flat_map_other env log ops _ Hnot) in Hd'. simpl in Hd'.
      congruence. }
  unfold tr, ops, listed, page in Hnone. unfold listed at 1 2. rewrite Hnone.
  assert (Hpage : page (mkPaging <$> limit') [] = []).
  { unfold page. destruct limit'; simpl; [apply take_nil|done]. }
  rewrite Hpage. reflexivity.
Qed.

(** *** The log lines of an iteration *)

Lemma log_lines_app s1 s2 : log_lines (s1 ++ s2) = log_lines s1 ++ log_lines s2.
Proof.
  induction s1 as [|ev s1 IH]; simpl; [done|]. destruct ev; simpl; by rewrite ?IH.
Qed.

#[local] Instance silent_monoidal : Monoidal (fun seg => log_lines seg = []).
Proof.
  split; [done|]. intros s1 s2 H1 H2. by rewrite log_lines_app, H1, H2.
Qed.

Lemma emits_silent_execute_operator env op :
  emits (fun seg => log_lines seg = []) (_execute_operator env op).
Proof.
  set (Q := fun seg => log_lines seg = []).
  unfold _execute_operator, set_failed, set_running, repo_update_run_state.
  destruct (doc_context op) as [c|]; [|by apply emits_raise].
  apply (emits_bind_monoidal Q); [by apply (emits_prepare Q)|].
  intros [r err|o x ctx].
  - apply (emits_bind_monoidal Q); [by apply (emits_repo_call Q)|].
    intros _. by apply emits_ret.
  - apply (emits_bind_monoidal Q); [by apply (emits_repo_call Q)|].
    intros _. by apply (emits_operator_execute Q).
Qed.

Lemma log_lines_log_line log line :
  log_lines (log_line log line) = if log then [line] else [].
Proof. by destruct log. Qed.

(** X13: the log lines of one iteration of the loop tell its outcome, for
    every backend.  With [log=True] the iteration logs "Running", and then
    "complete" exactly when its COMPLETED write was answered (the document is
    stored COMPLETED), "failed" exactly when its handler's FAILED write was
    answered (the document is stored FAILED), and nothing more when the
    iteration raises; with [log=False] it logs nothing. *)
Theorem log_lines_report_outcome env log op w r w' :
  execute_one env log op w = (r, w') →
  ∃ seg,
    trace w' = trace w ++ seg ∧
    ((∃ d, r = inr tt ∧
           log_lines seg =
             (if log then [LogRunning (doc_id op) (doc_operator op);
                           LogComplete (doc_id op)] else []) ∧
           find (has_id (doc_id op)) (store w') = Some d ∧
           doc_run_state d = COMPLETED) ∨
     (∃ d, r = inr tt ∧
           log_lines seg =
             (if log then [LogRunning (doc_id op) (doc_operator op);
                           LogFailed (doc_id op)] else []) ∧
           find (has_id (doc_id op)) (store w') = Some d ∧
           doc_run_state d = FAILED) ∨
     (∃ e, r = inl e ∧
           log_lines seg =
             (if log then [LogRunning (doc_id op) (doc_operator op)] else []))).
Proof.
  unfold execute_one, try_except, asyncio_run.
  match goal with |- context [bind ?m ?k w] => destruct (bind m k w) as [[e0|[]] w1] eqn:Hb end.
  - (* the body raised *)
    assert (Hbody : ∃ s1, trace w1 = trace w ++ s1 ∧
              log_lines s1 = if log then [LogRunning (doc_id op) (doc_operator op)] else []).
    { apply bind_inl in Hb as [Hb|([] & w2 & Hl & Hb)].
      { by apply when_log_inv in Hb as (? & _). }
      apply when_log_inv in Hl as (_ & _ & Htr2).
      assert (Hrest : ∃ s2, trace w1 = trace w2 ++ s2 ∧ log_lines s2 = []).
      { apply bind_inl in Hb as [Hb|(v & w3 & Hx & Hb)].
        { by apply emits_silent_execute_operator in Hb. }
        apply emits_silent_execute_operator in Hx as (s3 & Htr3 & Hs3).
        apply bind_inl in Hb as [Hb|(d & w4 & _ & Hb)].
        - unfold set_completed in Hb. apply repo_update_run_state_inv in Hb as [Htr4 _].
          exists (s3 ++ [EvRepo (CallUpdateRunState (doc_id op) COMPLETED v)]).
          rewrite Htr4, Htr3, <- app_assoc. split; [done|].
          by rewrite log_lines_app, Hs3.
        - by apply when_log_inv in Hb as (? & _). }
      destruct Hrest as (s2 & Htr & Hs2).
      exists (log_line log (LogRunning (doc_id op) (doc_operator op)) ++ s2).
      rewrite Htr, Htr2, <- app_assoc. split; [done|].
      by rewrite log_lines_app, Hs2, app_nil_r, log_lines_log_line. }
    destruct Hbody as (s1 & Htr1 & Hs1).
    intros Hh. destruct r as [e|[]].
    + apply bind_inl in Hh as [Hh|(d & w2 & _ & Hh)].
      * unfold set_failed in Hh. apply repo_update_run_state_inv in Hh as [Htr2 _].
        eexists. rewrite Htr2, Htr1, <- app_assoc. split; [done|].
        right. right. exists e. split; [done|].
        rewrite log_lines_app, Hs1. simpl. by rewrite app_nil_r.
      * by apply when_log_inv in Hh as (? & _).
    + apply bind_inr in Hh as (d & w2 & Hf & Hl).
      unfold set_failed in Hf.
      apply repo_update_run_state_inv in Hf as (Htr2 & _ & Hd & Hs).
      apply when_log_inv in Hl as (_ & Hst & Htr3).
      eexists. rewrite Htr3, Htr2, Htr1, <- !app_assoc. split; [done|].
      right. left. exists d. split; [done|].
      rewrite Hst. split; [|by split].
      rewrite !log_lines_app, Hs1, log_lines_log_line. by destruct log.
  - (* the body returned *)
    intros [= <- <-].
    apply bind_inr in Hb as ([] & w2 & Hl1 & Hb).
    apply when_log_inv in Hl1 as (_ & _ & Htr2).
    apply bind_inr in Hb as (v & w3 & Hx & Hb).
    apply emits_silent_execute_operator in Hx as (s3 & Htr3 & Hs3).
    apply bind_inr in Hb as (d & w4 & Hc & Hl2).
    unfold set_completed in Hc.
    apply repo_update_run_state_inv in Hc as (Htr4 & _ & Hd & Hs).
    apply when_log_inv in Hl2 as (_ & Hst & Htr5).
    eexists. rewrite Htr5, Htr4, Htr3, Htr2, <- !app_assoc. split; [done|].
    left. exists d. split; [done|]. rewrite Hst. split; [|by split].
    rewrite !log_lines_app, Hs3, !log_lines_log_line. by destruct log.
Qed.

(** *** Rerunning *)

(** X14: a rerun that raises changes nothing in the store.  Either [get]
    raised (the backend failed, or no document has the id) and
    [queue_operation] was never called, or [get] returned the document and
    the backend rejected the [queue_operation] call that carried its
    fields. *)
Theorem failed_rerun_queues_nothing env i w e w' :
  rerun_operation env i w = (inl e, w') →
  store w' = store w ∧
  ((trace w' = trace w ++ [EvRepo (CallGet i)] ∧
    (repo_fault env (CallGet i) = Some e ∨
     find (has_id i) (store w) = None ∧ e = NotFound i)) ∨
   (∃ orig,
      find (has_id i) (store w) = Some orig ∧
      trace w' = trace w ++ [EvRepo (CallGet i);
                             EvRepo (CallQueueOperation (doc_dict orig))] ∧
      repo_fault env (CallQueueOperation (doc_dict orig)) = Some e)).
Proof.
  unfold rerun_operation, bind, repo_get, repo_queue_operation, repo_call.
  destruct (repo_fault env (CallGet i)) as [e1|] eqn:Hget.
  - intros [= <- <-]. split; [done|]. left. split; [done|]. by left.
  - destruct (find (has_id i) (store w)) as [orig|] eqn:Hfind.
    + simpl. destruct (repo_fault env (CallQueueOperation (doc_dict orig))) as [e2|] eqn:Hq;
        [|done].
      intros [= <- <-]. split; [done|]. right. exists orig.
      split; [done|]. simpl. rewrite <- app_assoc. by split.
    + intros [= <- <-]. split; [done|]. left. split; [done|]. by right.
Qed.

(** *** Queueing, rerunning and the next pass *)

Lemma queue_operation_no_faults env operator delegation_target context w :
  no_faults env →
  queue_operation env operator delegation_target context w =
  (inr (mkDoc (fresh_id (store w)) operator delegation_target context QUEUED PyNone false),
   mkWorld (store w ++ [mkDoc (fresh_id (store w)) operator delegation_target context
                              QUEUED PyNone false])
           (trace w ++ [EvRepo (CallQueueOperation
                                  (mkQueueKwargs operator delegation_target context []))])).
Proof.
  intros Hnf. unfold queue_operation, repo_queue_operation, repo_call.
  by rewrite Hnf.
Qed.

Lemma opt_matches_same {A} `{EqDecision A} (a : A) : opt_matches (Some a) (Some a) = true.
Proof. simpl. by apply bool_decide_eq_true_2. Qed.

(** X15: queueing and execution compose: over a backend that answers, in a
    store with unique ids, an operation queued with a context is picked up by
    the next pass that filters on its operator, and when its operator
    resolves and its execution returns a value, the queued document is stored
    COMPLETED with that value, its other fields as queued. *)
Theorem queued_operation_is_executed env operator delegation_target context log w
    new o x ctx v :
  no_faults env → store_wf (store w) →
  new = mkDoc (fresh_id (store w)) operator delegation_target (Some context)
              QUEUED PyNone false →
  repo_matches_dataset env None None [] new = true →
  prepare_operator_executor env operator (injected new context) =
    inr (PreparedExecutor o x ctx) →
  op_execute o ctx = inr v →
  ∃ w1 w2,
    queue_operation env operator delegation_target (Some context) w = (inr new, w1) ∧
    execute_queued_operations env (Some operator) None None None log [] w1
      = (inr tt, w2) ∧
    find (has_id (doc_id new)) (store w2) =
      Some (mkDoc (doc_id new) operator delegation_target (Some context)
                  COMPLETED v false).
Proof.
  intros Hnf Hwf -> Hds Hp He.
  set (new := mkDoc (fresh_id (store w)) operator delegation_target (Some context)
                    QUEUED PyNone false) in *.
  pose proof (queue_operation_no_faults env operator delegation_target (Some context) w Hnf)
    as Hq.
  fold new in Hq.
  assert (Hwf1 : store_wf (store w ++ [new])).
  { unfold store_wf. rewrite fmap_app. apply NoDup_app. split; [done|]. split.
    - intros j Hj. simpl. rewrite list_elem_of_singleton. intros ->.
      by apply fresh_id_fresh in Hj.
    - apply NoDup_singleton. }
  assert (Hlisted : new ∈ listed env (queued_filters (Some operator) None None [])
                                 (mkPaging <$> None) (store w ++ [new])).
  { rewrite queued_filters_nil. unfold listed, page. simpl.
    apply list_elem_of_filter. split.
    - unfold matches. simpl. rewrite Hds. by rewrite !bool_decide_eq_true_2.
    - apply elem_of_app. right. by left. }
  destruct (pass_document env (Some operator) None None None log []
              (mkWorld (store w ++ [new])
                       (trace w ++ [EvRepo (CallQueueOperation
                                              (mkQueueKwargs operator delegation_target
                                                             (Some context) []))]))
              new keywords_bind_nil Hnf Hwf1 Hlisted)
    as (w2 & t1 & t2 & Hrun & _ & _ & Hfind).
  eexists _, w2. split; [exact Hq|].
  split; [exact Hrun|]. rewrite Hfind. f_equal.
  assert (Hev : writes (doc_id new) (doc_events env log new) =
                [(RUNNING, PyNone); (COMPLETED, v)]).
  { unfold doc_events, injected in *. simpl in Hp |- *. rewrite Hp, He.
    destruct log; simpl; rewrite !bool_decide_eq_true_2 by done; done. }
  by rewrite Hev.
Qed.

(** X16: recovery by rerun creates a sibling and leaves the original alone:
    over a backend that answers, in a store with unique ids, after
    [rerun_operation] of a document that is not QUEUED and a pass that
    filters on its operator, the original is stored exactly as before, and
    the new document, which has another id, is in a terminal state. *)
Theorem rerun_then_pass env i orig log w :
  no_faults env → store_wf (store w) →
  find (has_id i) (store w) = Some orig →
  doc_run_state orig ≠ QUEUED →
  (∀ d, repo_matches_dataset env None None [] d = true) →
  ∃ new w1 w2,
    rerun_operation env i w = (inr new, w1) ∧
    execute_queued_operations env (Some (doc_operator orig)) None None None log [] w1
      = (inr tt, w2) ∧
    doc_id new ≠ i ∧
    find (has_id i) (store w2) = Some orig ∧
    terminal_at (doc_id new) w2.
Proof.
  intros Hnf Hwf Hfind Hs Hds.
  set (new := mkDoc (fresh_id (store w)) (doc_operator orig) (doc_delegation_target orig)
                    (doc_context orig) QUEUED PyNone false).
  assert (Hrerun : rerun_operation env i w =
                   (inr new, mkWorld (store w ++ [new])
                               ((trace w ++ [EvRepo (CallGet i)]) ++
                                [EvRepo (CallQueueOperation (doc_dict orig))]))).
  { unfold rerun_operation, bind, repo_get, repo_queue_operation, repo_call.
    by rewrite Hnf, Hfind, Hnf. }
  assert (Hwf1 : store_wf (store w ++ [new])).
  { unfold store_wf. rewrite fmap_app. apply NoDup_app. split; [done|]. split.
    - intros j Hj. simpl. rewrite list_elem_of_singleton. intros ->.
      by apply fresh_id_fresh in Hj.
    - apply NoDup_singleton. }
  assert (Hne : doc_id new ≠ i).
  { intros Heq. apply (fresh_id_fresh (store w)).
    change (fresh_id (store w)) with (doc_id new). rewrite Heq.
    by eapply find_has_id_elem. }
  assert (Hlisted : new ∈ listed env (queued_filters (Some (doc_operator orig)) None
                                                     None [])
                                 (mkPaging <$> None) (store w ++ [new])).
  { rewrite queued_filters_nil. unfold listed, page. simpl.
    apply list_elem_of_filter. split.
    - unfold matches. simpl. rewrite Hds. by rewrite !bool_decide_eq_true_2.
    - apply elem_of_app. right. by left. }
  set (w1 := mkWorld (store w ++ [new])
                     ((trace w ++ [EvRepo (CallGet i)]) ++
                      [EvRepo (CallQueueOperation (doc_dict orig))])) in *.
  destruct (execute_queued_operations env (Some (doc_operator orig)) None None None
              log [] w1) as [r w2] eqn:Hrun.
  assert (Hr : r = inr tt).
  { pose proof (execute_queued_operations_no_faults env Hnf (Some (doc_operator orig))
                  None None None log [] w1 keywords_bind_nil) as Hrun'.
    rewrite Hrun in Hrun'. by injection Hrun' as -> _. }
  subst r.
  exists new, w1, w2. split; [exact Hrerun|]. split; [exact Hrun|].
  split; [exact Hne|]. split.
  - assert (Hfind1 : find (has_id i) (store w1) = Some orig).
    { by apply find_app_l. }
    rewrite <- Hfind1.
    apply (pass_frame env _ _ _ _ _ _ w1 _ w2 i Hrun).
    eapply unlisted_id_not_listed; [exact Hwf1|exact Hfind1|].
    intros Hd. apply Hs. eapply listed_queued; [|exact Hd]. reflexivity.
  - apply (pass_returns_terminal env _ _ _ _ _ _ w1 w2 new Hrun Hlisted).
Qed.

(** ** The further properties on the small deployments *)

Lemma raising_no_faults : no_faults raising_env.
Proof. intros call. reflexivity. Qed.

Lemma edge_store_wf : store_wf (store edge_world).
Proof. apply (bool_decide_unpack _). vm_compute. exact I. Qed.

Lemma done_store_wf : store_wf (store done_world).
Proof. apply (bool_decide_unpack _). vm_compute. exact I. Qed.

Lemma edge_listed :
  listed raising_env (queued_filters None None None []) (mkPaging <$> None)
         (store edge_world) = [doc_echo; doc_broken; doc_nocontext].
Proof. reflexivity. Qed.

Lemma doc_broken_listed :
  doc_broken ∈ listed raising_env (queued_filters None None None []) (mkPaging <$> None)
                      (store edge_world).
Proof. rewrite edge_listed. right. by left. Qed.

Lemma doc_nocontext_listed :
  doc_nocontext ∈ listed raising_env (queued_filters None None None [])
                         (mkPaging <$> None) (store edge_world).
Proof. rewrite edge_listed. right. right. by left. Qed.

Lemma doc_boom_not_echo :
  doc_boom ∉ listed demo_env (queued_filters (Some "echo") None None [])
                    (mkPaging <$> None) (store demo_world).
Proof.
  assert (Hl : listed demo_env (queued_filters (Some "echo") None None [])
                      (mkPaging <$> None) (store demo_world) = [doc_echo])
    by reflexivity.
  rewrite Hl. intros H. apply list_elem_of_singleton in H. discriminate.
Qed.


Lemma execution_follows_running_write_witness :
  let run := execute_queued_operations demo_env None None None None false []
                                       demo_world in
  run = (inr tt, run.2) ∧
  ∃ seg,
    trace run.2 = trace demo_world ++ seg ∧
    ∀ t1 uri ctx t2,
      seg = t1 ++ EvExecute uri ctx :: t2 →
      ∃ t0 i,
        t1 = t0 ++ [EvRepo (CallUpdateRunState i RUNNING PyNone)] ∧
        repo_fault demo_env (CallUpdateRunState i RUNNING PyNone) = None.
Proof.
  split; [vm_compute; reflexivity|].
  apply (execution_follows_running_write demo_env None None None None false []
           demo_world (inr tt)).
  vm_compute. reflexivity.
Defined.

Lemma pass_resolves_and_executes_at_most_once_witness :
  let run := execute_queued_operations demo_env None None None None false []
                                       demo_world in
  let f := queued_filters None None None [] in
  run = (inr tt, run.2) ∧
  ∃ head blocks,
    trace run.2 = trace demo_world ++ head ++ concat blocks ∧
    (head = [] ∨ head = [EvRepo (CallListOperations f (mkPaging <$> None))]) ∧
    Forall2 (block_of demo_env)
            (take (length blocks)
                  (listed demo_env f (mkPaging <$> None) (store demo_world)))
            blocks ∧
    length blocks = 3%nat.
Proof.
  intros run f. split; [vm_compute; reflexivity|].
  destruct (pass_resolves_and_executes_at_most_once demo_env None None None None false []
              demo_world (inr tt) run.2) as (head & blocks & Htr & Hhead & Hblocks & Hlen).
  - vm_compute. reflexivity.
  - exists head, blocks. split; [exact Htr|]. split; [exact Hhead|].
    split; [exact Hblocks|]. exact (Hlen eq_refl).
Defined.

Lemma pass_changes_run_state_and_result_only_witness :
  let run := execute_queued_operations demo_env None None None None false []
                                       demo_world in
  run = (inr tt, run.2) ∧ Forall2 same_fields (store demo_world) (store run.2).
Proof.
  split; [vm_compute; reflexivity|].
  apply (pass_changes_run_state_and_result_only demo_env None None None None false []
           demo_world (inr tt)).
  vm_compute. reflexivity.
Defined.

Lemma unlisted_documents_untouched_witness :
  let run := execute_queued_operations demo_env (Some "echo") None None None false []
                                       demo_world in
  store_wf (store demo_world) ∧ run = (inr tt, run.2) ∧
  find (has_id 3) (store demo_world) = Some doc_boom ∧
  find (has_id 3) (store run.2) = Some doc_boom.
Proof.
  split; [exact demo_store_wf|]. split; [vm_compute; reflexivity|].
  split; [reflexivity|].
  apply (unlisted_documents_untouched demo_env (Some "echo") None None None false []
           demo_world (inr tt) _ 3 doc_boom demo_store_wf);
    [vm_compute; reflexivity|reflexivity|exact doc_boom_not_echo].
Defined.

Lemma documents_not_queued_untouched_witness :
  let run := execute_queued_operations demo_env None None None None false []
                                       done_world in
  store_wf (store done_world) ∧ run = (inr tt, run.2) ∧
  find (has_id 2) (store done_world) = Some doc_done ∧
  doc_run_state doc_done ≠ QUEUED ∧
  find (has_id 2) (store run.2) = Some doc_done ∧
  ∃ seg,
    trace run.2 = trace done_world ++ seg ∧
    writes 2 seg = [] ∧
    (∀ uri params, EvPrepare uri params ∈ seg →
       params !! "run_doc" ≠ Some (PyObjectId 2)) ∧
    (∀ t1 uri ctx t2,
       seg = t1 ++ EvExecute uri ctx :: t2 →
       ∃ t0 i, t1 = t0 ++ [EvRepo (CallUpdateRunState i RUNNING PyNone)] ∧ i ≠ 2).
Proof.
  split; [exact done_store_wf|]. split; [vm_compute; reflexivity|].
  split; [reflexivity|]. split; [discriminate|].
  apply (documents_not_queued_untouched demo_env None None None None false []
           done_world (inr tt) _ 2 doc_done done_store_wf);
    [vm_compute; reflexivity|reflexivity|discriminate].
Defined.

Lemma service_keeps_ids_unique_witness :
  store_wf (store demo_world) ∧
  store_wf (store (queue_operation demo_env "echo" None (Some ctx_hi) demo_world).2) ∧
  store_wf (store (rerun_operation demo_env 3 demo_world).2) ∧
  store_wf (store (execute_queued_operations demo_env None None None None false []
                                             demo_world).2).
Proof.
  split; [exact demo_store_wf|].
  destruct (service_keeps_ids_unique demo_env demo_world demo_store_wf)
    as (Hq & Hr & _ & Hp).
  split; [apply Hq|]. split; [apply Hr|apply Hp].
Defined.

Lemma pass_raises_only_from_listing_or_handler_witness :
  let run := execute_queued_operations rejecting_env None None None None false []
                                       demo_world in
  run = (inl write_timeout, run.2) ∧
  ∃ op e0 t,
    op ∈ listed rejecting_env (queued_filters None None None []) (mkPaging <$> None)
                (store demo_world) ∧
    trace run.2 = t ++ [EvRepo (CallUpdateRunState (doc_id op) FAILED
                                  (ExecutionResult_error (format_exc e0)))] ∧
    repo_fault rejecting_env (CallUpdateRunState (doc_id op) FAILED
                                (ExecutionResult_error (format_exc e0)))
      = Some write_timeout.
Proof.
  split; [vm_compute; reflexivity|].
  destruct (pass_raises_only_from_listing_or_handler rejecting_env None None None None
              false [] demo_world write_timeout
              (execute_queued_operations rejecting_env None None None None false []
                                         demo_world).2)
    as [(name & Hk & _)|[(_ & Hf & _)|[_ H]]].
  - vm_compute. reflexivity.
  - discriminate Hk.
  - discriminate Hf.
  - exact H.
Defined.

Lemma aborted_pass_leaves_rest_queued_witness :
  let run := execute_queued_operations rejecting_env None None None None false []
                                       demo_world in
  store_wf (store demo_world) ∧ run = (inl write_timeout, run.2) ∧
  ∃ l1 l2,
    listed rejecting_env (queued_filters None None None []) (mkPaging <$> None)
           (store demo_world) = l1 ++ l2 ∧
    (∀ d, d ∈ l1 → terminal_at (doc_id d) run.2) ∧
    (∀ d, d ∈ tail l2 →
       find (has_id (doc_id d)) (store run.2) = Some d ∧ doc_run_state d = QUEUED).
Proof.
  split; [exact demo_store_wf|]. split; [vm_compute; reflexivity|].
  apply (aborted_pass_leaves_rest_queued rejecting_env None None None None false []
           demo_world write_timeout _ demo_store_wf).
  vm_compute. reflexivity.
Defined.

Lemma resolver_exception_recorded_witness :
  keywords_bind [] ∧ no_faults raising_env ∧ store_wf (store edge_world) ∧
  doc_context doc_broken = Some ctx_hi ∧
  prepare_operator_executor raising_env "broken" (injected doc_broken ctx_hi)
    = inl import_error ∧
  ∃ w' tr t1 t2 d,
    execute_queued_operations raising_env None None None None false [] edge_world
      = (inr tt, w') ∧
    trace w' = trace edge_world ++ tr ∧
    tr = t1 ++ [EvPrepare "broken" (injected doc_broken ctx_hi);
                EvRepo (CallUpdateRunState 2 FAILED
                          (ExecutionResult_error (format_exc import_error)))] ++ t2 ∧
    transitions 2 tr = [FAILED] ∧
    find (has_id 2) (store w') = Some d ∧
    doc_run_state d = FAILED ∧
    doc_result d = ExecutionResult_error (format_exc import_error).
Proof.
  split; [reflexivity|]. split; [exact raising_no_faults|]. split; [exact edge_store_wf|].
  split; [reflexivity|]. split; [vm_compute; reflexivity|].
  apply (resolver_exception_recorded raising_env None None None None false []
           edge_world doc_broken ctx_hi import_error keywords_bind_nil raising_no_faults
           edge_store_wf doc_broken_listed eq_refl).
  vm_compute. reflexivity.
Defined.

Lemma missing_context_recorded_witness :
  keywords_bind [] ∧ no_faults raising_env ∧ store_wf (store edge_world) ∧
  doc_context doc_nocontext = None ∧
  ∃ w' tr d tb,
    execute_queued_operations raising_env None None None None false [] edge_world
      = (inr tt, w') ∧
    trace w' = trace edge_world ++ tr ∧
    (∀ uri params, EvPrepare uri params ∈ tr →
       params !! "run_doc" ≠ Some (PyObjectId 3)) ∧
    transitions 3 tr = [FAILED] ∧
    find (has_id 3) (store w') = Some d ∧
    doc_run_state d = FAILED ∧
    doc_result d = ExecutionResult_error tb.
Proof.
  split; [reflexivity|]. split; [exact raising_no_faults|]. split; [exact edge_store_wf|].
  split; [reflexivity|].
  apply (missing_context_recorded raising_env None None None None false []
           edge_world doc_nocontext keywords_bind_nil raising_no_faults edge_store_wf
           doc_nocontext_listed eq_refl).
Defined.

Lemma second_pass_is_idle_witness :
  let kwargs := [("dataset_id", PyObjectId 7)] in
  keywords_bind kwargs ∧ no_faults demo_env ∧ store_wf (store demo_world) ∧
  ∃ w1,
    execute_queued_operations demo_env None None None None false kwargs demo_world
      = (inr tt, w1) ∧
    execute_queued_operations demo_env None None None (Some 5%Z) true kwargs w1 =
    (inr tt,
     mkWorld (store w1)
             (trace w1 ++
              [EvRepo (CallListOperations (queued_filters None None None kwargs)
                                          (mkPaging <$> Some 5%Z))])).
Proof.
  intros kwargs.
  split; [reflexivity|]. split; [exact demo_no_faults|]. split; [exact demo_store_wf|].
  apply (second_pass_is_idle demo_env None None None false kwargs (Some 5%Z) true
           demo_world eq_refl demo_no_faults demo_store_wf).
Defined.

Lemma log_lines_report_outcome_witness :
  let run := execute_one demo_env true doc_boom demo_world in
  run = (inr tt, run.2) ∧
  ∃ seg,
    trace run.2 = trace demo_world ++ seg ∧
    ((∃ d, @inr PyExn unit tt = inr tt ∧
           log_lines seg = [LogRunning 3 "boom"; LogComplete 3] ∧
           find (has_id 3) (store run.2) = Some d ∧ doc_run_state d = COMPLETED) ∨
     (∃ d, @inr PyExn unit tt = inr tt ∧
           log_lines seg = [LogRunning 3 "boom"; LogFailed 3] ∧
           find (has_id 3) (store run.2) = Some d ∧ doc_run_state d = FAILED) ∨
     (∃ e, @inr PyExn unit tt = inl e ∧ log_lines seg = [LogRunning 3 "boom"])).
Proof.
  split; [vm_compute; reflexivity|].
  apply (log_lines_report_outcome demo_env true doc_boom demo_world (inr tt)).
  vm_compute. reflexivity.
Defined.

Lemma failed_rerun_queues_nothing_witness :
  let run := rerun_operation demo_env 9 demo_world in
  run = (inl (NotFound 9), run.2) ∧
  store run.2 = store demo_world ∧
  ((trace run.2 = trace demo_world ++ [EvRepo (CallGet 9)] ∧
    (repo_fault demo_env (CallGet 9) = Some (NotFound 9) ∨
     find (has_id 9) (store demo_world) = None ∧ NotFound 9 = NotFound 9)) ∨
   (∃ orig,
      find (has_id 9) (store demo_world) = Some orig ∧
      trace run.2 = trace demo_world ++ [EvRepo (CallGet 9);
                                         EvRepo (CallQueueOperation (doc_dict orig))] ∧
      repo_fault demo_env (CallQueueOperation (doc_dict orig)) = Some (NotFound 9))).
Proof.
  split; [vm_compute; reflexivity|].
  apply (failed_rerun_queues_nothing demo_env 9 demo_world (NotFound 9)).
  vm_compute. reflexivity.
Defined.

Lemma queued_operation_is_executed_witness :
  no_faults demo_env ∧ store_wf (store demo_world) ∧
  op_execute echo_operator
    (mkContext (injected (mkDoc 4 "echo" None (Some ctx_hi) QUEUED PyNone false) ctx_hi))
    = inr (PyStr "hi") ∧
  ∃ w1 w2,
    queue_operation demo_env "echo" None (Some ctx_hi) demo_world
      = (inr (mkDoc 4 "echo" None (Some ctx_hi) QUEUED PyNone false), w1) ∧
    execute_queued_operations demo_env (Some "echo") None None None false [] w1
      = (inr tt, w2) ∧
    find (has_id 4) (store w2) =
      Some (mkDoc 4 "echo" None (Some ctx_hi) COMPLETED (PyStr "hi") false).
Proof.
  split; [exact demo_no_faults|]. split; [exact demo_store_wf|].
  split; [vm_compute; reflexivity|].
  apply (queued_operation_is_executed demo_env "echo" None ctx_hi false demo_world
           (mkDoc 4 "echo" None (Some ctx_hi) QUEUED PyNone false)
           echo_operator PyNone
           (mkContext (injected (mkDoc 4 "echo" None (Some ctx_hi) QUEUED PyNone false)
                                ctx_hi))
           (PyStr "hi") demo_no_faults demo_store_wf).
  - reflexivity.
  - reflexivity.
  - vm_compute. reflexivity.
  - vm_compute. reflexivity.
Defined.

Lemma rerun_then_pass_witness :
  no_faults demo_env ∧ store_wf (store done_world) ∧
  find (has_id 2) (store done_world) = Some doc_done ∧
  doc_run_state doc_done ≠ QUEUED ∧
  ∃ new w1 w2,
    rerun_operation demo_env 2 done_world = (inr new, w1) ∧
    execute_queued_operations demo_env (Some (doc_operator doc_done)) None None None
                              false [] w1 = (inr tt, w2) ∧
    doc_id new ≠ 2 ∧
    find (has_id 2) (store w2) = Some doc_done ∧
    terminal_at (doc_id new) w2.
Proof.
  split; [exact demo_no_faults|]. split; [exact done_store_wf|].
  split; [reflexivity|]. split; [discriminate|].
  apply (rerun_then_pass demo_env 2 doc_done false done_world demo_no_faults
           done_store_wf eq_refl).
  - discriminate.
  - intros d. reflexivity.
Defined.
